(** * Category resolution of the search resolvers (node/resolvers/search/utils.ts)

    A shallow embedding of the category helpers of [utils.ts]:
    [findCategoryInTree], [buildCategoryMap] / [appendToMap],
    [getCategoryInfo], [searchContextGetCategory] and [getIdFromTree],
    followed by the properties of the specification that concern them.

    Conventions of the embedding.
    - A JavaScript string is a [string]; the only character-level operations
      the code performs are splitting at ['/'], suffix tests, concatenation
      and equality, which do not depend on the width of a code unit.
    - [String.prototype.toUpperCase], [ramda.toLower], the two normalisers of
      [utils/slug] and [JSON.stringify] are library functions: the
      development is parametric in them, and [Ascii] instances are supplied
      for the concrete scenarios.
    - A call that can throw returns an [outcome]; an [async] function that
      talks to the search client or to the logger is a computation in [Eff],
      which records the external calls in the order they are issued. Where
      the code attaches [catch] to the promise of a call, a throw of the
      call and a rejection of its promise are kept apart ([invocation]).
    - The object used as a dictionary by [appendToMap] is a [gmap] keyed by
      the category identifier. *)

From Stdlib Require Import ZArith String Ascii.
From stdpp Require Import gmap strings list fin_maps.

(* [set_solver] clears hypotheses by name; the names it misses are harmless. *)
#[local] Set Warnings "-clear-no-such-hyp".

Local Open Scope string_scope.
Local Open Scope list_scope.
Local Open Scope Z_scope.

(** ** Thrown values *)

Inductive exn : Type :=
  | TypeError                      (* a property read on [undefined] *)
  | Rejected (reason : string).    (* a rejected promise of a client call *)

Inductive outcome (A : Type) : Type :=
  | Returned (a : A)
  | Thrown (e : exn).

Arguments Returned {A} a.
Arguments Thrown {A} e.

(** ** Data model *)

Unset Elimination Schemes.
Inductive CategoryTreeResponse : Type := mkCategory {
  id : Z;
  url : string;
  children : list CategoryTreeResponse
}.
Set Elimination Schemes.

(** Induction over a category together with the categories below it. *)
Section CategoryInduction.
Variable P : CategoryTreeResponse -> Prop.
Hypothesis P_node :
  forall i u cs, Forall P cs -> P (mkCategory i u cs).

Fixpoint CategoryTreeResponse_ind (c : CategoryTreeResponse) : P c :=
  match c with
  | mkCategory i u cs =>
      P_node i u cs
        ((fix below (l : list CategoryTreeResponse) : Forall P l :=
            match l with
            | [] => ListDef.Forall_nil P
            | x :: l' =>
                ListDef.Forall_cons P x l' (CategoryTreeResponse_ind x) (below l')
            end) cs)
  end.
End CategoryInduction.

(** ** Strings: [split('/')], [last], [endsWith] *)

(** [s.split(sep)] for a one-character separator. *)
Fixpoint split (sep : ascii) (s : string) : list string :=
  match s with
  | EmptyString => [EmptyString]
  | String c rest =>
      if Ascii.eqb c sep then EmptyString :: split sep rest
      else match split sep rest with
           | [] => [String c EmptyString]
           | seg :: segs => String c seg :: segs
           end
  end.

(** [compose(last, split('/'))]; ramda's [last] of an empty array is
    [undefined], here [None]. *)
Definition lastSegment (u : string) : option string :=
  last (split "/" u).

(** [s.endsWith(p)]: [p] is [s] or ends a tail of [s]. *)
Fixpoint endsWith (s p : string) : bool :=
  String.eqb s p
  || match s with
     | EmptyString => false
     | String _ s' => endsWith s' p
     end.

(** The separator does not occur in [s]. *)
Fixpoint lacks (sep : ascii) (s : string) : bool :=
  match s with
  | EmptyString => true
  | String c rest => negb (Ascii.eqb c sep) && lacks sep rest
  end.

(** ** Imported functions

    [utils.ts] imports [toLower] from ramda and [searchSlugify], [Slugify]
    from [../../utils/slug], and calls the built-in [toUpperCase] and
    [JSON.stringify]. None of them is defined in this file; the embedding
    is parametric in them. *)

Record CategoryArgs : Type := mkArgs {
  department : option string;
  category : option string;
  subcategory : option string
}.

Class Imports : Type := {
  toUpperCase : string -> string;
  toLower : string -> string;
  searchSlugify : string -> string;
  Slugify : string -> string;
  JSON_stringify : CategoryArgs -> string
}.

(** ** [findCategoryInTree] *)

Section PathSearch.
Context `{Imports}.

(** [values[index]]: [undefined] outside of the array. *)
Definition at_index (values : list string) (index : Z) : option string :=
  if index <? 0 then None else values !! Z.to_nat index.

(** The test of line 55 on one node, [slug.toUpperCase() ===
    values[index].toUpperCase()]; calling [toUpperCase] on [undefined]
    throws. *)
Definition slugTest (node : CategoryTreeResponse) (values : list string)
    (index : Z) : outcome bool :=
  match lastSegment (url node) with
  | None => Thrown TypeError
  | Some slug =>
      match at_index values index with
      | None => Thrown TypeError
      | Some v => Returned (String.eqb (toUpperCase slug) (toUpperCase v))
      end
  end.

(** The loop of [findCategoryInTree] over the children of [parent]: the
    recursive call of line 59 is on the children of a node of the list
    being scanned, so the recursion is by structure on the parent. *)
Fixpoint findBelow (parent : CategoryTreeResponse) (values : list string)
    (index : Z) {struct parent} : outcome (option CategoryTreeResponse) :=
  match parent with
  | mkCategory _ _ cs =>
      (fix scan (tree : list CategoryTreeResponse) :=
         match tree with
         | [] => Returned None
         | node :: rest =>
             match slugTest node values index with
             | Thrown e => Thrown e
             | Returned true =>
                 if index =? Z.of_nat (length values) - 1
                 then Returned (Some node)
                 else findBelow node values (index + 1)
             | Returned false => scan rest
             end
         end) cs
  end.

Fixpoint findCategoryInTree (tree : list CategoryTreeResponse)
    (values : list string) (index : Z)
    : outcome (option CategoryTreeResponse) :=
  match tree with
  | [] => Returned None
  | node :: rest =>
      match slugTest node values index with
      | Thrown e => Thrown e
      | Returned true =>
          if index =? Z.of_nat (length values) - 1
          then Returned (Some node)
          else findBelow node values (index + 1)
      | Returned false => findCategoryInTree rest values index
      end
  end.

(** *** Chains of slugs

    A node matches a path segment when the last segment of its URL equals
    it after upper-casing both. *)
Definition slugMatches (node : CategoryTreeResponse) (v : string) : bool :=
  match lastSegment (url node) with
  | Some slug => String.eqb (toUpperCase slug) (toUpperCase v)
  | None => false
  end.

(** [tracesChain tree path d]: [path] names, level by level, a chain of
    nodes that starts among [tree] and ends at [d]. *)
Inductive tracesChain :
    list CategoryTreeResponse -> list string -> CategoryTreeResponse -> Prop :=
  | chain_end tree n v :
      n ∈ tree -> slugMatches n v = true -> tracesChain tree [v] n
  | chain_step tree n v vs d :
      n ∈ tree -> slugMatches n v = true ->
      tracesChain (children n) vs d -> tracesChain tree (v :: vs) d.

(** [n] is the first node of [tree], in source order, that matches [v]. *)
Definition firstMatch (tree : list CategoryTreeResponse) (v : string)
    (n : CategoryTreeResponse) : Prop :=
  exists pre post,
    tree = pre ++ n :: post /\
    Forall (fun m => slugMatches m v = false) pre /\
    slugMatches n v = true.

(** A chain every node of which is the first match among its siblings. *)
Inductive firstChain :
    list CategoryTreeResponse -> list string -> CategoryTreeResponse -> Prop :=
  | first_end tree n v :
      firstMatch tree v n -> firstChain tree [v] n
  | first_step tree n v vs d :
      firstMatch tree v n ->
      firstChain (children n) vs d -> firstChain tree (v :: vs) d.

(** The data-model invariant, read up to case: a node that matches a
    segment is not preceded by a sibling that matches it too; and so at
    every level of the tree. *)
Definition distinctSlugs (tree : list CategoryTreeResponse) : Prop :=
  forall pre n post v,
    tree = pre ++ n :: post -> slugMatches n v = true ->
    Forall (fun m => slugMatches m v = false) pre.

#[warnings="-register-all"]
Inductive uniqueSlugs : list CategoryTreeResponse -> Prop :=
  | unique_level tree :
      distinctSlugs tree ->
      Forall (fun n => uniqueSlugs (children n)) tree ->
      uniqueSlugs tree.

(** *** Statements about the search below one node *)

(** What [findCategoryInTree] returns below a node is a first-match
    chain of the rest of the path. *)
Definition soundBelow (c : CategoryTreeResponse) : Prop :=
  forall values index d,
    findCategoryInTree (children c) values index = Returned (Some d) ->
    firstChain (children c) (drop (Z.to_nat index) values) d.

(** With the index inside the path, nothing is thrown below a node. *)
Definition returnsBelow (c : CategoryTreeResponse) : Prop :=
  forall values index,
    0 <= index < Z.of_nat (length values) ->
    exists r, findCategoryInTree (children c) values index = Returned r.
End PathSearch.

(** ** [buildCategoryMap] and [appendToMap] *)

(** [mapCategories[category.id] = category], then the children are folded
    into the same object with [reduce]. The property key is the decimal
    rendering of the identifier, one key per integer. *)
Fixpoint appendToMap (mapCategories : gmap Z CategoryTreeResponse)
    (category : CategoryTreeResponse) {struct category}
    : gmap Z CategoryTreeResponse :=
  match category with
  | mkCategory i _ cs => foldl appendToMap (<[i := category]> mapCategories) cs
  end.

Definition buildCategoryMap (categoryTree : list CategoryTreeResponse)
    : gmap Z CategoryTreeResponse :=
  foldl appendToMap ∅ categoryTree.

(** The nodes of a category in depth-first pre-order, and of a tree. *)
Fixpoint preorder (c : CategoryTreeResponse) : list CategoryTreeResponse :=
  match c with
  | mkCategory _ _ cs => c :: flat_map preorder cs
  end.

Definition nodes (tree : list CategoryTreeResponse) : list CategoryTreeResponse :=
  flat_map preorder tree.

(** The node a given identifier is bound to when the nodes of [l] are
    written to a map one after the other. *)
Definition lastWithId (i : Z) (l : list CategoryTreeResponse)
    : option CategoryTreeResponse :=
  last (filter (fun n => id n = i) l).

(** One assignment [mapCategories[n.id] = n]. *)
Definition assign (m : gmap Z CategoryTreeResponse) (n : CategoryTreeResponse)
    : gmap Z CategoryTreeResponse :=
  <[id n := n]> m.

(** ** External calls

    The resolvers are [async] functions over the search client and the
    logger. A computation of [Eff A] yields the calls it issued, in order,
    and either the value it resolves to or the value it is rejected with. *)

(** What the page-type service answers: an identifier and a label. *)
Record PageType : Type := mkPageType {
  pageType_id : Z;
  pageType_pageType : string
}.

(** What a call of a method of the client does: it throws before it
    returns, or it returns a promise, which settles. *)
Inductive invocation (A : Type) : Type :=
  | Raises (e : exn)
  | Promise (settles : outcome A).

Arguments Raises {A} e.
Arguments Promise {A} settles.

(** [Context['clients']['search']]. The promise of [pageType] may resolve
    to nothing ([None]). [categories] is only called under [await] in an
    [async] function, where a throw of the call and a rejection of its
    promise both reject the function: one [outcome] stands for both. *)
Record SearchClient : Type := mkSearch {
  search_pageType : string -> invocation (option PageType);
  search_categories : Z -> outcome (list CategoryTreeResponse)
}.

Inductive event : Type :=
  | CallPageType (path : string)
  | CallCategories (levels : Z)
  | LoggerInfo (message name : string).

Record Eff (A : Type) : Type := mkEff {
  calls : list event;
  settled : outcome A
}.

Arguments mkEff {A} calls settled.
Arguments calls {A} e.
Arguments settled {A} e.

Definition resolve {A} (a : A) : Eff A := mkEff [] (Returned a).

Definition await {A B} (m : Eff A) (k : A -> Eff B) : Eff B :=
  match settled m with
  | Returned a => mkEff (calls m ++ calls (k a)) (settled (k a))
  | Thrown e => mkEff (calls m) (Thrown e)
  end.

(** [promise.catch(handler)]. *)
Definition catch {A} (m : Eff A) (handler : exn -> Eff A) : Eff A :=
  match settled m with
  | Returned a => m
  | Thrown e => mkEff (calls m ++ calls (handler e)) (settled (handler e))
  end.

Notation "'let*' x ':=' m 'in' k" := (await m (fun x => k))
  (at level 10, x name, m at level 100, k at level 200).

(** [search.pageType(path).catch(handler)]: the handler guards the promise
    that the call returns; when the call itself throws there is no promise,
    [catch] is not reached and the throw rejects the [async] function. *)
Definition pageType_catch (search : SearchClient) (path : string)
    (handler : exn -> Eff (option PageType)) : Eff (option PageType) :=
  match search_pageType search path with
  | Raises e => mkEff [CallPageType path] (Thrown e)
  | Promise settles => catch (mkEff [CallPageType path] settles) handler
  end.

Definition categories (search : SearchClient) (levels : Z)
    : Eff (list CategoryTreeResponse) :=
  mkEff [CallCategories levels] (search_categories search levels).

Definition logger_info (message name : string) : Eff unit :=
  mkEff [LoggerInfo message name] (Returned tt).

(** ** [getCategoryInfo] *)

(** The value of [mapCategories[id] || { url: '' }]: a category of the
    tree, or an object that has a [url] and nothing else. *)
Inductive CategoryInfo : Type :=
  | OfTree (c : CategoryTreeResponse)
  | UrlOnly (u : string).

Definition getCategoryInfo (search : SearchClient) (i : Z) (levels : Z)
    : Eff CategoryInfo :=
  let* cats := categories search levels in
  let mapCategories := foldl appendToMap ∅ cats in
  resolve (match mapCategories !! i with
           | Some c => OfTree c
           | None => UrlOnly ""
           end).

(** ** [searchContextGetCategory] and [getIdFromTree] *)

(** Truthiness of an optional string: [undefined] and [''] are falsy. *)
Definition truthy (o : option string) : bool :=
  match o with
  | Some s => negb (String.eqb s "")
  | None => false
  end.

(** [[a, b, c].filter(Boolean)]. *)
Definition filterBoolean (l : list (option string)) : list string :=
  omap (fun o => if truthy o then o else None) l.

Definition typesPossible : list string :=
  ["Department"; "Category"; "SubCategory"].

(** [array.includes(x)] on strings. *)
Definition includes (l : list string) (x : string) : bool :=
  existsb (String.eqb x) l.

Inductive entity : Type := Edepartment | Ecategory | Esubcategory.

(** [args[entity]]. *)
Definition arg (args : CategoryArgs) (e : entity) : option string :=
  match e with
  | Edepartment => department args
  | Ecategory => category args
  | Esubcategory => subcategory args
  end.

Section Resolver.
Context `{Imports}.

Definition compareGenericSlug (args : CategoryArgs) (e : entity)
    (u : string) : bool :=
  match arg args e with
  | Some slug =>
      if truthy (Some slug)
      then endsWith u ("/" +:+ toLower (searchSlugify slug))
           || endsWith u ("/" +:+ toLower (Slugify slug))
      else false
  | None => false
  end.

Definition getIdFromTree (args : CategoryArgs) (search : SearchClient)
    : Eff (option Z) :=
  if truthy (department args) then
    let* departments := categories search 3 in
    let found :=
      find (fun d => compareGenericSlug args Edepartment (url d)) departments in
    let found :=
      match found with
      | Some f =>
          if truthy (category args)
          then find (fun c => compareGenericSlug args Ecategory (url c))
                 (children f)
          else found
      | None => found
      end in
    let found :=
      match found with
      | Some f =>
          if truthy (subcategory args)
          then find (fun c => compareGenericSlug args Esubcategory (url c))
                 (children f)
          else found
      | None => found
      end in
    resolve (match found with Some f => Some (id f) | None => None end)
  else resolve None.

(** The path submitted to the page-type service. *)
Definition categoryPath (args : CategoryArgs) : string :=
  String.concat "/"
    (map searchSlugify
       (filterBoolean [department args; category args; subcategory args])).

Definition searchContextGetCategory (args : CategoryArgs)
    (search : SearchClient) (isVtex : bool) : Eff (option Z) :=
  if negb isVtex then getIdFromTree args search
  else if negb (truthy (department args)) && negb (truthy (category args))
          && negb (truthy (subcategory args))
  then resolve None
  else
    let u := categoryPath args in
    let* pt := pageType_catch search u (fun _ => resolve None) in
    let* _ :=
      match pt with
      | None =>
          logger_info ("category " +:+ u +:+ ", args " +:+ JSON_stringify args)
            "pagetype-category-error"
      | Some _ => resolve tt
      end in
    match pt with
    | None => getIdFromTree args search
    | Some p =>
        if negb (includes typesPossible (pageType_pageType p))
        then getIdFromTree args search
        else resolve (Some (pageType_id p))
    end.

(** Some segment of the path is given. *)
Definition someSegment (args : CategoryArgs) : bool :=
  truthy (department args) || truthy (category args)
  || truthy (subcategory args).

(** The message of the diagnostic of line 149. *)
Definition diagnostic (args : CategoryArgs) : string :=
  "category " +:+ categoryPath args +:+ ", args " +:+ JSON_stringify args.
End Resolver.

(** ** Instances for the scenarios

    The scenarios of the specification are run with ASCII case mappings and
    with two sample normalisers. *)

Fixpoint mapChars (f : ascii -> ascii) (s : string) : string :=
  match s with
  | EmptyString => EmptyString
  | String c rest => String (f c) (mapChars f rest)
  end.

Fixpoint dropChar (x : ascii) (s : string) : string :=
  match s with
  | EmptyString => EmptyString
  | String c rest =>
      if Ascii.eqb c x then dropChar x rest else String c (dropChar x rest)
  end.

Definition upperChar (c : ascii) : ascii :=
  let n := N_of_ascii c in
  if ((97 <=? n) && (n <=? 122))%N then ascii_of_N (n - 32) else c.

Definition lowerChar (c : ascii) : ascii :=
  let n := N_of_ascii c in
  if ((65 <=? n) && (n <=? 90))%N then ascii_of_N (n + 32) else c.

Definition asciiUpper : string -> string := mapChars upperChar.
Definition asciiLower : string -> string := mapChars lowerChar.

Definition dashFor (x c : ascii) : ascii := if Ascii.eqb c x then "-"%char else c.

(** Modelled from the spec: [searchSlugify] of [utils/slug] is not in this
    file. The specification treats the two normalisers as pure,
    deterministic functions that need not agree; this search-style
    instance lower-cases and writes a dash for a space or an apostrophe. *)
Definition sampleSearchSlugify (s : string) : string :=
  asciiLower (mapChars (dashFor "'") (mapChars (dashFor " ") s)).

(** Modelled from the spec: [Slugify] of [utils/slug] is not in this file.
    This generic-style instance lower-cases, writes a dash for a space and
    drops apostrophes, so that it disagrees with the search-style one on
    names that have an apostrophe. *)
Definition sampleSlugify (s : string) : string :=
  asciiLower (mapChars (dashFor " ") (dropChar "'" s)).

(** The double quote. *)
Definition quote : string := String "034" EmptyString.

Definition hexDigit (n : N) : ascii :=
  if (n <? 10)%N then ascii_of_N (48 + n) else ascii_of_N (87 + n).

(** One character of a JSON string: the quote, the backslash and the
    control characters are escaped. *)
Definition jsonChar (c : ascii) : string :=
  let n := N_of_ascii c in
  if (n =? 34)%N then "\" +:+ quote
  else if (n =? 92)%N then "\\"
  else if (n =? 8)%N then "\b"
  else if (n =? 9)%N then "\t"
  else if (n =? 10)%N then "\n"
  else if (n =? 12)%N then "\f"
  else if (n =? 13)%N then "\r"
  else if (n <? 32)%N
  then "\u00" +:+ String (hexDigit (n / 16)) (String (hexDigit (n mod 16)) "")
  else String c EmptyString.

Fixpoint jsonChars (s : string) : string :=
  match s with
  | EmptyString => EmptyString
  | String c rest => jsonChar c +:+ jsonChars rest
  end.

Definition jsonString (s : string) : string := quote +:+ jsonChars s +:+ quote.

(** A property of the object; a property that is [undefined] is left
    out. *)
Definition jsonField (name : string) (o : option string) : list string :=
  match o with
  | Some v => [jsonString name +:+ ":" +:+ jsonString v]
  | None => []
  end.

(** [JSON.stringify] on an object that has the three properties of
    [CategoryArgs] and no other, in the order of the interface. *)
Definition sampleStringify (args : CategoryArgs) : string :=
  "{" +:+ String.concat "," (jsonField "department" (department args)
                              ++ jsonField "category" (category args)
                              ++ jsonField "subcategory" (subcategory args))
  +:+ "}".

#[export] Instance asciiImports : Imports := {|
  toUpperCase := asciiUpper;
  toLower := asciiLower;
  searchSlugify := sampleSearchSlugify;
  Slugify := sampleSlugify;
  JSON_stringify := sampleStringify
|}.

(** The tree of the scenario of the specification. *)
Definition sneakers : CategoryTreeResponse := mkCategory 2 "/shoes/sneakers" [].
Definition shoes : CategoryTreeResponse := mkCategory 1 "/shoes" [sneakers].

(** Two siblings whose slugs differ only by case; only the second one has
    the child the path asks for. *)
Definition boots : CategoryTreeResponse := mkCategory 13 "/shoes/boots" [].
Definition shoesUpper : CategoryTreeResponse := mkCategory 11 "/SHOES" [].
Definition shoesLower : CategoryTreeResponse := mkCategory 12 "/shoes" [boots].

(** A tree in which a child repeats the identifier of its parent. *)
Definition nodeB : CategoryTreeResponse := mkCategory 1 "/a/b" [].
Definition nodeA : CategoryTreeResponse := mkCategory 1 "/a" [nodeB].

(** Departments whose URLs are not lower-case, or only match the
    generic-style slug. *)
Definition capitalised : CategoryTreeResponse := mkCategory 7 "/Shoes" [].
Definition mens : CategoryTreeResponse := mkCategory 8 "/mens" [].

Definition onlyDepartment (d : string) : CategoryArgs :=
  mkArgs (Some d) None None.

Definition noArgs : CategoryArgs := mkArgs None None None.

(** A client whose page-type call returns a promise that settles to [pt]
    and whose category tree is [tree]. *)
Definition clientOf (pt : outcome (option PageType))
    (tree : list CategoryTreeResponse) : SearchClient :=
  mkSearch (fun _ => Promise pt) (fun _ => Returned tree).

(** A client whose page-type call throws [e] before it returns a promise. *)
Definition raisingClient (e : exn) (tree : list CategoryTreeResponse)
    : SearchClient :=
  mkSearch (fun _ => Raises e) (fun _ => Returned tree).

(** A client whose fetch of the tree is rejected with [e]. *)
Definition failingClient (pt : outcome (option PageType)) (e : exn)
    : SearchClient :=
  mkSearch (fun _ => Promise pt) (fun _ => Thrown e).

(** ** The statements of the specification the code departs from *)

Section SpecWording.
Context `{Imports}.

(** The suffix test "compared case-insensitively": both sides are brought
    to one case before the comparison. *)
Definition endsWithIgnoringCase (u p : string) : bool :=
  endsWith (toUpperCase u) (toUpperCase p).

(** A department matches when its URL ends, case being ignored, with a
    slash and one of the two normalised forms of the name. *)
Definition departmentMatchesIgnoringCase (d u : string) : bool :=
  endsWithIgnoringCase u ("/" +:+ searchSlugify d)
  || endsWithIgnoringCase u ("/" +:+ Slugify d).
End SpecWording.

(** ** [translatePageType]

    [pageTypeMapping] is an object literal read with a key that the caller
    chooses. A key outside of the literal reaches [Object.prototype]: the
    read then yields a member of the prototype, which is not a string and
    is truthy. *)

Inductive property : Type :=
  | OwnString (s : string)
  | Inherited (name : string).

Definition pageTypeMapping : gmap string string :=
  list_to_map
    [("Brand", "brand"); ("Department", "department");
     ("Category", "category"); ("SubCategory", "subcategory");
     ("NotFound", "search"); ("FullText", "search"); ("Search", "search")].

(** The property names of [Object.prototype]. *)
Definition objectPrototype : list string :=
  ["constructor"; "hasOwnProperty"; "isPrototypeOf"; "propertyIsEnumerable";
   "toLocaleString"; "toString"; "valueOf"; "__proto__";
   "__defineGetter__"; "__defineSetter__"; "__lookupGetter__";
   "__lookupSetter__"].

(** [object[key]] on an object literal whose own properties are [own]. *)
Definition readProperty (own : gmap string string) (key : string)
    : option property :=
  match own !! key with
  | Some v => Some (OwnString v)
  | None => if includes objectPrototype key then Some (Inherited key) else None
  end.

(** [pageTypeMapping[searchPageType] || 'search']: the empty string and
    [undefined] are falsy. *)
Definition translatePageType (searchPageType : string) : property :=
  match readProperty pageTypeMapping searchPageType with
  | Some (OwnString v) =>
      if String.eqb v "" then OwnString "search" else OwnString v
  | Some (Inherited name) => Inherited name
  | None => OwnString "search"
  end.

(** ** [zipQueryAndMap] *)

(** [array.map(f)] for a callback that can throw: the first throw ends the
    traversal. *)
Fixpoint mapThrowing {A B} (f : A -> outcome B) (l : list A)
    : outcome (list B) :=
  match l with
  | [] => Returned []
  | x :: rest =>
      match f x with
      | Thrown e => Thrown e
      | Returned y =>
          match mapThrowing f rest with
          | Thrown e => Thrown e
          | Returned ys => Returned (y :: ys)
          end
      end
  end.

(** [value || '']. *)
Definition orEmpty (value : option string) : string :=
  match value with
  | Some s => s
  | None => ""
  end.

(** The number of occurrences of a character. *)
Fixpoint occurrences (sep : ascii) (s : string) : nat :=
  match s with
  | EmptyString => O
  | String c rest =>
      if Ascii.eqb c sep then S (occurrences sep rest) else occurrences sep rest
  end.

Section QueryAndMap.
Context `{Imports}.

(** The built-in [decodeURIComponent], which throws on a malformed escape
    sequence. *)
Variable decodeURIComponent : string -> outcome string.

(** [toLowerCase] is the method ramda's [toLower] invokes. The first
    argument of [zip] is evaluated before the second. *)
Definition zipQueryAndMap (query mapArg : option string)
    : outcome (list (string * string)) :=
  let cleanQuery := orEmpty query in
  let cleanMap := orEmpty mapArg in
  match mapThrowing decodeURIComponent (split "/" (toLower cleanQuery)) with
  | Thrown e => Thrown e
  | Returned segments => Returned (zip segments (split "," cleanMap))
  end.
End QueryAndMap.

(** ** [getBrandFromSlug] *)

Section Brands.
Context `{Imports}.

(** The brands of the search client; of a brand the function reads
    [name] and [isActive]. *)
Context {Brand : Type}.
Variable brand_name : Brand -> string.
Variable brand_isActive : Brand -> bool.

(** The predicate given to [brands.find]. *)
Definition brandMatches (brandSlug : string) (brand : Brand) : bool :=
  brand_isActive brand
  && (String.eqb (toLower (searchSlugify (brand_name brand))) brandSlug
      || String.eqb (toLower (Slugify (brand_name brand))) brandSlug).

(** [search_brands] is what [search.brands()] settles to. *)
Definition getBrandFromSlug (brandSlug : string)
    (search_brands : outcome (list Brand)) : outcome (option Brand) :=
  match search_brands with
  | Thrown e => Thrown e
  | Returned brands => Returned (find (brandMatches brandSlug) brands)
  end.
End Brands.

(** ** [searchEncodeURI] *)

(** The characters of the class of the regular expression: the percent
    sign, the double quote (character 34), the apostrophe, the dot and the
    two parentheses. *)
Definition specialChars : list ascii :=
  ["%"; "034"; "'"; "."; "("; ")"]%char.

(** The callback of [str.replace]. *)
Definition escapeChar (c : ascii) : string :=
  if Ascii.eqb c "%" then "@perc@"
  else if Ascii.eqb c "034" then "@quo@"
  else if Ascii.eqb c "'" then "@squo@"
  else if Ascii.eqb c "." then "@dot@"
  else if Ascii.eqb c "(" then "@lpar@"
  else if Ascii.eqb c ")" then "@rpar@"
  else String c EmptyString.

(** [str.replace(regexp, callback)] with the global flag: every character
    of the class is replaced, the others are kept, and what was written is
    not read again. *)
Fixpoint replaceSpecial (str : string) : string :=
  match str with
  | EmptyString => EmptyString
  | String c rest => escapeChar c +:+ replaceSpecial rest
  end.

Section Encode.
(** [Functions.isGoCommerceAcc] of [@gocommerce/utils]. *)
Variable isGoCommerceAcc : string -> bool.

Definition searchEncodeURI (account : string) (str : string) : string :=
  if negb (isGoCommerceAcc account) then replaceSpecial str else str.
End Encode.

(** ** More data for the scenarios *)

(** A percent sign followed by no escape is malformed; other segments are
    left as they are by this instance of [decodeURIComponent]. *)
Definition sampleDecode (s : string) : outcome string :=
  if lacks "%" s then Returned s else Thrown (Rejected "URIError").

Record SampleBrand : Type := mkBrand {
  sample_name : string;
  sample_isActive : bool
}.

(** A department, one of its categories and a subcategory. *)
Definition running : CategoryTreeResponse := mkCategory 23 "/men/shoes/running" [].
Definition menShoes : CategoryTreeResponse := mkCategory 22 "/men/shoes" [running].
Definition men : CategoryTreeResponse := mkCategory 21 "/men" [menShoes].

(** * Properties *)

(** ** Strings *)

Lemma split_nonempty sep s : split sep s <> [].
Proof.
  destruct s as [|c rest]; simpl; [discriminate|].
  destruct (Ascii.eqb c sep); [discriminate|].
  destruct (split sep rest); discriminate.
Qed.

Lemma lastSegment_is_Some u : is_Some (lastSegment u).
Proof.
  unfold lastSegment. pose proof (split_nonempty "/" u) as Hne.
  destruct (split "/" u) as [|seg segs] using rev_ind; [congruence|].
  rewrite last_snoc. eauto.
Qed.

Lemma split_lacks sep s : lacks sep s = true -> split sep s = [s].
Proof.
  induction s as [|c rest IH]; simpl; [reflexivity|].
  intros [Hc Hrest]%andb_prop. apply negb_true_iff in Hc. rewrite Hc.
  now rewrite (IH Hrest).
Qed.

Lemma split_app sep p s :
  split sep (p +:+ String sep s) = split sep p ++ split sep s.
Proof.
  induction p as [|c p IH]; simpl.
  - now rewrite Ascii.eqb_refl.
  - destruct (Ascii.eqb c sep); [now rewrite IH|].
    rewrite IH. pose proof (split_nonempty sep p) as Hne.
    destruct (split sep p); [congruence|reflexivity].
Qed.

(** The slug of a URL is what follows its last slash. *)
Lemma lastSegment_after_slash p s :
  lacks "/" s = true -> lastSegment (p +:+ String "/" s) = Some s.
Proof.
  intros Hs. unfold lastSegment.
  now rewrite split_app, (split_lacks _ _ Hs), last_snoc.
Qed.

Lemma lastSegment_no_slash s : lacks "/" s = true -> lastSegment s = Some s.
Proof. intros Hs. unfold lastSegment. now rewrite (split_lacks _ _ Hs). Qed.

(** [endsWith s p] holds exactly when [s] is some string followed by [p]. *)
Lemma endsWith_spec s p : endsWith s p = true <-> exists q, s = q +:+ p.
Proof.
  split.
  - induction s as [|a s IH]; cbn [endsWith].
    + rewrite orb_false_r. intros ->%String.eqb_eq. now exists "".
    + intros [->%String.eqb_eq | Hs]%orb_prop; [now exists ""|].
      destruct (IH Hs) as [q ->]. now exists (String a q).
  - intros [q ->]. induction q as [|a q IH].
    + change ("" +:+ p) with p.
      destruct p; cbn [endsWith]; now rewrite String.eqb_refl.
    + change (String a q +:+ p) with (String a (q +:+ p)).
      cbn [endsWith]. rewrite IH. apply orb_true_r.
Qed.

(** ** [findCategoryInTree] *)

Section PathSearchFacts.
Context `{Imports}.

(** [findBelow] is [findCategoryInTree] on the children, which gives the
    function the shape it has in the source. *)
Lemma findBelow_children parent values index :
  findBelow parent values index =
  findCategoryInTree (children parent) values index.
Proof.
  destruct parent as [i u cs]; simpl.
  induction cs as [|c cs IH]; [reflexivity|].
  simpl. destruct (slugTest c values index) as [[|]|]; try reflexivity.
  exact IH.
Qed.

Lemma findCategoryInTree_cons node rest values index :
  findCategoryInTree (node :: rest) values index =
  match slugTest node values index with
  | Thrown e => Thrown e
  | Returned true =>
      if index =? Z.of_nat (length values) - 1
      then Returned (Some node)
      else findCategoryInTree (children node) values (index + 1)
  | Returned false => findCategoryInTree rest values index
  end.
Proof.
  simpl. destruct (slugTest node values index) as [[|]|]; try reflexivity.
  now rewrite findBelow_children.
Qed.

Lemma slugTest_defined node values index v :
  at_index values index = Some v ->
  slugTest node values index = Returned (slugMatches node v).
Proof.
  intros Hv. unfold slugTest, slugMatches. rewrite Hv.
  now destruct (lastSegment_is_Some (url node)) as [slug ->].
Qed.

Lemma slugTest_undefined node values index :
  at_index values index = None ->
  slugTest node values index = Thrown TypeError.
Proof.
  intros Hv. unfold slugTest. rewrite Hv.
  now destruct (lastSegment (url node)).
Qed.

Lemma at_index_inside values index :
  0 <= index < Z.of_nat (length values) ->
  is_Some (at_index values index).
Proof.
  intros Hi. unfold at_index.
  destruct (Z.ltb_spec index 0); [lia|].
  apply lookup_lt_is_Some. lia.
Qed.

Lemma at_index_Some values index v :
  at_index values index = Some v ->
  0 <= index /\ values !! Z.to_nat index = Some v.
Proof.
  unfold at_index. destruct (Z.ltb_spec index 0); [discriminate|]. auto.
Qed.

Lemma at_index_app done v vs :
  at_index (done ++ v :: vs) (Z.of_nat (length done)) = Some v.
Proof.
  unfold at_index. destruct (Z.ltb_spec (Z.of_nat (length done)) 0); [lia|].
  rewrite Nat2Z.id. apply list_lookup_middle. reflexivity.
Qed.

(** Nodes that do not match are passed over. *)
Lemma findCategoryInTree_skip pre rest values index v :
  at_index values index = Some v ->
  Forall (fun m => slugMatches m v = false) pre ->
  findCategoryInTree (pre ++ rest) values index =
  findCategoryInTree rest values index.
Proof.
  intros Hv Hpre. induction Hpre as [|m pre Hm _ IH]; [reflexivity|].
  rewrite <- app_comm_cons, findCategoryInTree_cons.
  now rewrite (slugTest_defined _ _ _ _ Hv), Hm.
Qed.

Lemma findCategoryInTree_at_first tree n values index v :
  at_index values index = Some v ->
  firstMatch tree v n ->
  findCategoryInTree tree values index =
  if index =? Z.of_nat (length values) - 1
  then Returned (Some n)
  else findCategoryInTree (children n) values (index + 1).
Proof.
  intros Hv (pre & post & -> & Hpre & Hn).
  rewrite (findCategoryInTree_skip _ _ _ _ _ Hv Hpre).
  now rewrite findCategoryInTree_cons, (slugTest_defined _ _ _ _ Hv), Hn.
Qed.

Lemma firstMatch_elem tree v n : firstMatch tree v n -> n ∈ tree.
Proof. intros (pre & post & -> & _). set_solver. Qed.

Lemma firstMatch_matches tree v n :
  firstMatch tree v n -> slugMatches n v = true.
Proof. now intros (pre & post & _ & _ & Hn). Qed.

Lemma firstChain_tracesChain tree path d :
  firstChain tree path d -> tracesChain tree path d.
Proof.
  induction 1 as [tree n v Hn | tree n v vs d Hn _ IH].
  - apply chain_end; eauto using firstMatch_elem, firstMatch_matches.
  - eapply chain_step; eauto using firstMatch_elem, firstMatch_matches.
Qed.

Lemma firstChain_path tree path d : firstChain tree path d -> path <> [].
Proof. destruct 1; discriminate. Qed.

(** Completeness along a first-match chain, at any depth of the path. *)
Lemma findCategoryInTree_firstChain tree path d :
  firstChain tree path d ->
  forall done,
    findCategoryInTree tree (done ++ path) (Z.of_nat (length done)) =
    Returned (Some d).
Proof.
  induction 1 as [tree n v Hn | tree n v vs d Hn Hrest IH]; intros done.
  - rewrite (findCategoryInTree_at_first _ _ _ _ _ (at_index_app _ _ _) Hn).
    rewrite length_app. simpl.
    destruct (Z.eqb_spec (Z.of_nat (length done))
                (Z.of_nat (length done + 1) - 1)); [reflexivity|lia].
  - rewrite (findCategoryInTree_at_first _ _ _ _ _ (at_index_app _ _ _) Hn).
    apply firstChain_path in Hrest.
    rewrite length_app. simpl.
    destruct (Z.eqb_spec (Z.of_nat (length done))
                (Z.of_nat (length done + S (length vs)) - 1)) as [Heq|_].
    + destruct vs; [congruence|simpl in Heq; lia].
    + specialize (IH (done ++ [v])).
      rewrite <- app_assoc, length_app in IH. simpl in IH.
      now replace (Z.of_nat (length done) + 1)
        with (Z.of_nat (length done + 1)) by lia.
Qed.
End PathSearchFacts.

Section PathSearchResults.
Context `{Imports}.

Lemma findCategoryInTree_sound_level tree :
  Forall soundBelow tree ->
  forall values index d pre,
    (forall v, at_index values index = Some v ->
               Forall (fun m => slugMatches m v = false) pre) ->
    findCategoryInTree tree values index = Returned (Some d) ->
    firstChain (pre ++ tree) (drop (Z.to_nat index) values) d.
Proof.
  induction 1 as [|n rest Hn _ IH]; intros values index d pre Hpre;
    [discriminate|].
  rewrite findCategoryInTree_cons.
  destruct (at_index values index) as [v|] eqn:Hv;
    [|now rewrite (slugTest_undefined _ _ _ Hv)].
  rewrite (slugTest_defined _ _ _ _ Hv).
  destruct (at_index_Some _ _ _ Hv) as [Hpos Hlook].
  assert (Hfirst : slugMatches n v = true -> firstMatch (pre ++ n :: rest) v n)
    by (intros Hm; exists pre, rest; auto).
  destruct (slugMatches n v) eqn:Hm.
  - rewrite (drop_S _ _ _ Hlook).
    destruct (Z.eqb_spec index (Z.of_nat (length values) - 1)) as [Hlast|Hmore].
    + intros [= <-]. rewrite drop_ge by lia. apply first_end; auto.
    + intros Hrec. apply Hn in Hrec.
      replace (Z.to_nat (index + 1)) with (S (Z.to_nat index)) in Hrec by lia.
      apply first_step with n; auto.
  - intros Hrec. rewrite (cons_middle n pre rest), app_assoc.
    apply IH; [|exact Hrec].
    intros v' Hv'. assert (v' = v) as -> by congruence.
    apply Forall_app; split; [auto|]. now constructor.
Qed.

Lemma findCategoryInTree_soundBelow c : soundBelow c.
Proof.
  induction c as [i u cs IH] using CategoryTreeResponse_ind.
  intros values index d Hfind.
  apply (findCategoryInTree_sound_level cs IH values index d []); auto.
Qed.

(** Soundness: a node is returned only at the end of a first-match chain
    of the path, read from [index] on. *)
Lemma findCategoryInTree_sound tree values index d :
  findCategoryInTree tree values index = Returned (Some d) ->
  firstChain tree (drop (Z.to_nat index) values) d.
Proof.
  intros Hfind.
  apply (findCategoryInTree_sound_level tree) with (pre := []); auto.
  apply Forall_forall. intros c _. apply findCategoryInTree_soundBelow.
Qed.

Lemma findCategoryInTree_returns_level tree :
  Forall returnsBelow tree ->
  forall values index,
    0 <= index < Z.of_nat (length values) ->
    exists r, findCategoryInTree tree values index = Returned r.
Proof.
  induction 1 as [|n rest Hn _ IH]; intros values index Hi; [now eexists|].
  rewrite findCategoryInTree_cons.
  destruct (at_index_inside _ _ Hi) as [v Hv].
  rewrite (slugTest_defined _ _ _ _ Hv).
  destruct (slugMatches n v); [|now apply IH].
  destruct (Z.eqb_spec index (Z.of_nat (length values) - 1));
    [now eexists|].
  apply Hn. lia.
Qed.

Lemma findCategoryInTree_returnsBelow c : returnsBelow c.
Proof.
  induction c as [i u cs IH] using CategoryTreeResponse_ind.
  intros values index Hi.
  now apply (findCategoryInTree_returns_level cs IH).
Qed.

Lemma findCategoryInTree_returns tree values index :
  0 <= index < Z.of_nat (length values) ->
  exists r, findCategoryInTree tree values index = Returned r.
Proof.
  apply findCategoryInTree_returns_level.
  apply Forall_forall. intros c _. apply findCategoryInTree_returnsBelow.
Qed.

(** Where sibling slugs are distinct up to case, every chain is a
    first-match chain. *)
Lemma uniqueSlugs_firstChain tree path d :
  uniqueSlugs tree -> tracesChain tree path d -> firstChain tree path d.
Proof.
  intros Hu Hc. induction Hc as [tree n v Hin Hm | tree n v vs d Hin Hm _ IH];
    destruct Hu as [tree Hdistinct Hbelow];
    destruct (list_elem_of_split _ _ Hin) as (pre & post & ->).
  - apply first_end. exists pre, post. eauto.
  - apply first_step with n; [exists pre, post; eauto|].
    apply IH. rewrite Forall_forall in Hbelow. now apply Hbelow.
Qed.

(** The nodes [findCategoryInTree] can return for a path are exactly the
    ends of its first-match chains. *)
Lemma findCategoryInTree_Some_iff tree path d :
  findCategoryInTree tree path 0 = Returned (Some d) <-> firstChain tree path d.
Proof.
  split.
  - apply (findCategoryInTree_sound tree path 0 d).
  - intros Hc. exact (findCategoryInTree_firstChain tree path d Hc []).
Qed.

(** Under the invariant of the data model, read up to case, every chain
    is found. *)
Lemma findCategoryInTree_unique_slugs tree path d :
  uniqueSlugs tree -> tracesChain tree path d ->
  findCategoryInTree tree path 0 = Returned (Some d).
Proof.
  intros Hu Hc. apply findCategoryInTree_Some_iff.
  now apply uniqueSlugs_firstChain.
Qed.

(** C1 (amended). For every tree and every slug path that traces a chain
    in which each node is the first of its siblings, in source order,
    whose slug equals the path segment of its level up to case,
    [findCategoryInTree] returns the node at the end of the chain. *)
Theorem findCategoryInTree_first_chain tree path d :
  firstChain tree path d ->
  findCategoryInTree tree path 0 = Returned (Some d).
Proof.
  intros Hc. exact (findCategoryInTree_firstChain tree path d Hc []).
Qed.

(** C2 (amended). For every tree and every non-empty slug path,
    [findCategoryInTree] throws nothing, and it returns [null] when the
    path traces no chain of slugs in the tree. *)
Theorem findCategoryInTree_no_chain tree path :
  path <> [] ->
  (exists r, findCategoryInTree tree path 0 = Returned r) /\
  ((forall d, ~ tracesChain tree path d) ->
   findCategoryInTree tree path 0 = Returned None).
Proof.
  intros Hpath.
  assert (Hin : 0 <= 0 < Z.of_nat (length path))
    by (destruct path; [congruence|simpl; lia]).
  destruct (findCategoryInTree_returns tree path 0 Hin) as [r Hr].
  split; [eauto|]. intros Hnone. rewrite Hr. destruct r as [d|]; [|reflexivity].
  apply findCategoryInTree_sound in Hr.
  now apply firstChain_tracesChain, Hnone in Hr.
Qed.

(** C3. [findCategoryInTree] descends along one path only: the first
    sibling, in source order, whose slug matches decides the result. At
    the last segment that sibling is returned; otherwise the result is
    that of the search among its children, whatever the later siblings
    are, so that a failure below it is the failure of the whole search. *)
Theorem findCategoryInTree_single_descent pre n post values index v :
  at_index values index = Some v ->
  Forall (fun m => slugMatches m v = false) pre ->
  slugMatches n v = true ->
  findCategoryInTree (pre ++ n :: post) values index =
    (if index =? Z.of_nat (length values) - 1
     then Returned (Some n)
     else findCategoryInTree (children n) values (index + 1)) /\
  (index <> Z.of_nat (length values) - 1 ->
   findCategoryInTree (children n) values (index + 1) = Returned None ->
   findCategoryInTree (pre ++ n :: post) values index = Returned None).
Proof.
  intros Hv Hpre Hn.
  assert (Hfirst : firstMatch (pre ++ n :: post) v n) by (exists pre, post; auto).
  rewrite (findCategoryInTree_at_first _ _ _ _ _ Hv Hfirst).
  split; [reflexivity|]. intros Hmore Hbelow.
  now destruct (Z.eqb_spec index (Z.of_nat (length values) - 1)).
Qed.
End PathSearchResults.

(** *** The scenarios of the path search *)

(** The scenario of the specification: the path [shoes/sneakers]. *)
Example findCategoryInTree_scenario :
  findCategoryInTree [shoes] ["shoes"; "sneakers"] 0 = Returned (Some sneakers)
  /\ id sneakers = 2.
Proof. split; reflexivity. Qed.

Lemma findCategoryInTree_first_chain_witness :
  firstChain [shoes] ["shoes"; "sneakers"] sneakers /\
  findCategoryInTree [shoes] ["shoes"; "sneakers"] 0 = Returned (Some sneakers).
Proof.
  assert (Hc : firstChain [shoes] ["shoes"; "sneakers"] sneakers).
  { apply first_step with shoes.
    - exists [], []. split; [reflexivity|split; [constructor|reflexivity]].
    - apply first_end. exists [], []. split; [reflexivity|split; [constructor|reflexivity]]. }
  split; [exact Hc|].
  exact (findCategoryInTree_first_chain _ _ _ Hc).
Defined.

(** C1 as stated fails: [/SHOES] and [/shoes] are distinct slugs that are
    equal up to case; the path [shoes/boots] traces the chain through the
    second one, and the search, which descends into the first one, returns
    [null]. *)
Lemma findCategoryInTree_misses_chain :
  tracesChain [shoesUpper; shoesLower] ["shoes"; "boots"] boots /\
  findCategoryInTree [shoesUpper; shoesLower] ["shoes"; "boots"] 0 =
    Returned None.
Proof.
  split; [|reflexivity].
  apply chain_step with shoesLower.
  - set_solver.
  - reflexivity.
  - apply chain_end; [set_solver|reflexivity].
Qed.

Lemma findCategoryInTree_no_chain_witness :
  ["hats"] <> [] /\
  (forall d, ~ tracesChain [shoes] ["hats"] d) /\
  findCategoryInTree [shoes] ["hats"] 0 = Returned None.
Proof.
  assert (Hpath : ["hats"] <> []) by discriminate.
  assert (Hnone : forall d, ~ tracesChain [shoes] ["hats"] d).
  { intros d Hc.
    assert (Hm : exists n, n ∈ [shoes] /\ slugMatches n "hats" = true)
      by (inversion Hc; subst; eauto).
    destruct Hm as (n & Hin & Hm).
    apply list_elem_of_singleton in Hin. subst n. discriminate Hm. }
  split; [exact Hpath|]. split; [exact Hnone|].
  exact (proj2 (findCategoryInTree_no_chain [shoes] ["hats"] Hpath) Hnone).
Defined.

(** C2 as stated fails on the empty path, which traces no chain: reading
    [values[0].toUpperCase()] throws a [TypeError] at the first node. *)
Lemma findCategoryInTree_empty_path_throws :
  (forall d, ~ tracesChain [shoes] [] d) /\
  findCategoryInTree [shoes] [] 0 = Thrown TypeError.
Proof.
  split; [|reflexivity]. intros d Hc. inversion Hc.
Qed.

Lemma findCategoryInTree_single_descent_witness :
  at_index ["shoes"; "boots"] 0 = Some "shoes" /\
  slugMatches shoesUpper "shoes" = true /\
  findCategoryInTree ([] ++ shoesUpper :: [shoesLower]) ["shoes"; "boots"] 0 =
    Returned None /\
  findCategoryInTree [shoesLower] ["shoes"; "boots"] 0 = Returned (Some boots).
Proof.
  assert (Hv : at_index ["shoes"; "boots"] 0 = Some "shoes") by reflexivity.
  assert (Hm : slugMatches shoesUpper "shoes" = true) by reflexivity.
  split; [exact Hv|]. split; [exact Hm|]. split; [|reflexivity].
  destruct (findCategoryInTree_single_descent [] shoesUpper [shoesLower]
              ["shoes"; "boots"] 0 "shoes" Hv (ListDef.Forall_nil _) Hm)
    as [_ Hfail].
  apply Hfail; [discriminate|reflexivity].
Defined.

(** ** [buildCategoryMap] *)

Lemma appendToMap_unfold m c :
  appendToMap m c = foldl appendToMap (assign m c) (children c).
Proof. now destruct c. Qed.

Lemma preorder_unfold c : preorder c = c :: flat_map preorder (children c).
Proof. now destruct c. Qed.

Lemma foldl_appendToMap_level cs :
  Forall (fun c => forall m, appendToMap m c = foldl assign m (preorder c)) cs ->
  forall m, foldl appendToMap m cs = foldl assign m (flat_map preorder cs).
Proof.
  induction 1 as [|c cs Hc _ IH]; intros m; [reflexivity|].
  simpl. now rewrite foldl_app, Hc, IH.
Qed.

(** [appendToMap] assigns the nodes of the category in pre-order. *)
Lemma appendToMap_preorder c m :
  appendToMap m c = foldl assign m (preorder c).
Proof.
  revert m. induction c as [i u cs IH] using CategoryTreeResponse_ind.
  intros m. rewrite appendToMap_unfold, preorder_unfold. simpl.
  now apply foldl_appendToMap_level.
Qed.

Lemma foldl_appendToMap_nodes tree m :
  foldl appendToMap m tree = foldl assign m (nodes tree).
Proof.
  apply foldl_appendToMap_level, Forall_forall.
  intros c _ m'. apply appendToMap_preorder.
Qed.

Lemma lastWithId_cons i n l :
  lastWithId i (n :: l) =
  match lastWithId i l with
  | Some x => Some x
  | None => if decide (id n = i) then Some n else None
  end.
Proof.
  unfold lastWithId. rewrite filter_cons.
  destruct (decide (id n = i)); [|now destruct (last _)].
  destruct (filter (fun x => id x = i) l) as [|y ys] eqn:Hf; [reflexivity|].
  rewrite last_cons. now destruct (last (y :: ys)) eqn:Hl.
Qed.

(** After a sequence of assignments an identifier is bound to the last node
    of the sequence that carries it, or as it was before. *)
Lemma lookup_foldl_assign l m i :
  foldl assign m l !! i =
  match lastWithId i l with
  | Some n => Some n
  | None => m !! i
  end.
Proof.
  revert m. induction l as [|n l IH]; intros m; [reflexivity|].
  simpl. rewrite IH, lastWithId_cons.
  destruct (lastWithId i l); [reflexivity|].
  unfold assign. rewrite lookup_insert.
  destruct (decide (id n = i)); reflexivity.
Qed.

Lemma dom_foldl_assign l m :
  dom (foldl assign m l) = dom m ∪ list_to_set (id <$> l).
Proof.
  revert m. induction l as [|n l IH]; intros m; simpl.
  - set_solver.
  - rewrite IH. unfold assign. rewrite dom_insert_L. set_solver.
Qed.

Lemma lastWithId_None i l : i ∉ id <$> l -> lastWithId i l = None.
Proof.
  induction l as [|n l IH]; [reflexivity|].
  rewrite fmap_cons, not_elem_of_cons. intros [Hn Hl].
  rewrite lastWithId_cons, (IH Hl). destruct (decide (id n = i)); congruence.
Qed.

(** C4. The map of [buildCategoryMap] is the result of assigning the nodes
    of the tree in depth-first pre-order; its keys are exactly the
    identifiers that occur in the tree; an identifier is bound to the last
    node, in that order, that carries it; and the empty tree gives the
    empty map. *)
Theorem buildCategoryMap_index tree :
  buildCategoryMap tree = foldl assign ∅ (nodes tree) /\
  dom (buildCategoryMap tree) = list_to_set (id <$> nodes tree) /\
  (forall i, buildCategoryMap tree !! i = lastWithId i (nodes tree)) /\
  buildCategoryMap [] = ∅.
Proof.
  unfold buildCategoryMap. rewrite foldl_appendToMap_nodes.
  split; [reflexivity|]. split; [|split; [|reflexivity]].
  - rewrite dom_foldl_assign. set_solver.
  - intros i. rewrite lookup_foldl_assign, lookup_empty.
    now destruct (lastWithId i (nodes tree)).
Qed.

(** The scenario of the specification: [B], a child of [A], repeats the
    identifier [1] of [A], and the map binds [1] to [B]. *)
Example buildCategoryMap_duplicate :
  nodes [nodeA] = [nodeA; nodeB] /\
  buildCategoryMap [nodeA] !! 1 = Some nodeB /\
  dom (buildCategoryMap [nodeA]) = {[ 1 ]}.
Proof.
  split; [reflexivity|]. unfold buildCategoryMap.
  rewrite foldl_appendToMap_nodes. split.
  - now rewrite lookup_foldl_assign.
  - rewrite dom_foldl_assign. set_solver.
Qed.

(** ** [getCategoryInfo] *)

(** C10. When the tree is fetched and no node of it carries the identifier,
    [getCategoryInfo] resolves to the object [{ url: '' }], after the one
    call that fetches the tree. *)
Theorem getCategoryInfo_unknown search i levels tree :
  search_categories search levels = Returned tree ->
  i ∉ id <$> nodes tree ->
  getCategoryInfo search i levels =
    mkEff [CallCategories levels] (Returned (UrlOnly "")).
Proof.
  intros Hfetch Hi. unfold getCategoryInfo, await, categories. simpl.
  rewrite Hfetch. simpl.
  rewrite foldl_appendToMap_nodes, lookup_foldl_assign.
  now rewrite (lastWithId_None _ _ Hi), lookup_empty.
Qed.

Lemma getCategoryInfo_unknown_witness :
  (5 ∉ id <$> nodes [shoes]) /\
  getCategoryInfo (clientOf (Returned None) [shoes]) 5 3 =
    mkEff [CallCategories 3] (Returned (UrlOnly "")).
Proof.
  assert (Hi : 5 ∉ id <$> nodes [shoes]) by (simpl; set_solver).
  split; [exact Hi|].
  exact (getCategoryInfo_unknown (clientOf (Returned None) [shoes]) 5 3 [shoes]
           eq_refl Hi).
Defined.

(** ** [searchContextGetCategory] and [getIdFromTree] *)

Lemma includes_spec l x : includes l x = true <-> x ∈ l.
Proof.
  unfold includes. rewrite existsb_exists. split.
  - intros (y & Hy%list_elem_of_In & ->%String.eqb_eq). exact Hy.
  - intros Hx. exists x. rewrite String.eqb_refl.
    split; [now apply list_elem_of_In|reflexivity].
Qed.

Lemma includes_false l x : x ∉ l -> includes l x = false.
Proof.
  intros Hx. destruct (includes l x) eqn:Hi; [|reflexivity].
  now apply includes_spec in Hi.
Qed.

Lemma find_agree {A} (f g : A -> bool) l :
  Forall (fun x => f x = g x) l -> find f l = find g l.
Proof.
  induction 1 as [|x l Hx _ IH]; [reflexivity|].
  simpl. now rewrite Hx, IH.
Qed.

Section ResolverFacts.
Context `{Imports}.

(** The only call of [getIdFromTree] is the fetch of the tree. *)
Lemma getIdFromTree_calls args search :
  calls (getIdFromTree args search) =
  if truthy (department args) then [CallCategories 3] else [].
Proof.
  unfold getIdFromTree. destruct (truthy (department args)); [|reflexivity].
  unfold await, categories. simpl.
  now destruct (search_categories search 3).
Qed.

Lemma getIdFromTree_no_log args search message name :
  LoggerInfo message name ∉ calls (getIdFromTree args search).
Proof.
  rewrite getIdFromTree_calls.
  destruct (truthy (department args)); set_solver.
Qed.

(** In classification mode, with a segment given, the page-type service is
    asked first; what follows depends on whether the call throws and on
    what its promise settles to. *)
Lemma searchContextGetCategory_classify args search :
  someSegment args = true ->
  searchContextGetCategory args search true =
  match search_pageType search (categoryPath args) with
  | Raises e => mkEff [CallPageType (categoryPath args)] (Thrown e)
  | Promise (Returned (Some p)) =>
      if includes typesPossible (pageType_pageType p)
      then mkEff [CallPageType (categoryPath args)]
             (Returned (Some (pageType_id p)))
      else mkEff (CallPageType (categoryPath args)
                    :: calls (getIdFromTree args search))
             (settled (getIdFromTree args search))
  | Promise _ =>
      mkEff (CallPageType (categoryPath args)
               :: LoggerInfo (diagnostic args) "pagetype-category-error"
               :: calls (getIdFromTree args search))
        (settled (getIdFromTree args search))
  end.
Proof.
  unfold someSegment, searchContextGetCategory. intros Hsome. cbn [negb].
  replace (negb (truthy (department args)) && negb (truthy (category args))
           && negb (truthy (subcategory args))) with false
    by (destruct (truthy (department args)), (truthy (category args)),
          (truthy (subcategory args)); try reflexivity; discriminate).
  unfold await, pageType_catch, catch, logger_info, diagnostic.
  destruct (search_pageType search (categoryPath args)) as [e|[[p|]|e]];
    cbn [calls settled resolve app]; try reflexivity.
  destruct (includes typesPossible (pageType_pageType p));
    cbn [negb calls settled resolve app]; reflexivity.
Qed.

(** In classification mode the diagnostic is logged only when the promise
    of the page-type call was rejected or resolved to nothing; what is
    logged is the message of line 149 under the name of line 150. *)
Lemma searchContextGetCategory_logged args search message name :
  LoggerInfo message name ∈ calls (searchContextGetCategory args search true) ->
  (search_pageType search (categoryPath args) = Promise (Returned None) \/
   exists e, search_pageType search (categoryPath args) = Promise (Thrown e))
  /\ message = diagnostic args /\ name = "pagetype-category-error".
Proof.
  destruct (someSegment args) eqn:Hsome.
  - rewrite (searchContextGetCategory_classify _ _ Hsome).
    destruct (search_pageType search (categoryPath args)) as [e|[[p|]|e]];
      [|destruct (includes typesPossible (pageType_pageType p))|..];
      cbn [calls]; intros Hlog.
    + set_solver.
    + set_solver.
    + apply elem_of_cons in Hlog as [[=]|Hlog].
      now apply getIdFromTree_no_log in Hlog.
    + apply elem_of_cons in Hlog as [[=]|Hlog].
      apply elem_of_cons in Hlog as [[= -> ->]|Hlog]; [auto|].
      now apply getIdFromTree_no_log in Hlog.
    + apply elem_of_cons in Hlog as [[=]|Hlog].
      apply elem_of_cons in Hlog as [[= -> ->]|Hlog]; [eauto|].
      now apply getIdFromTree_no_log in Hlog.
  - unfold someSegment in Hsome. unfold searchContextGetCategory.
    apply orb_false_elim in Hsome as [[Hd Hc]%orb_false_elim Hs].
    rewrite Hd, Hc, Hs. cbn. set_solver.
Qed.

(** C5. In classification mode, when the page-type service resolves to a
    result whose label is [Department], [Category] or [SubCategory],
    [searchContextGetCategory] resolves to the identifier of that result;
    the call to the service is the only call it makes, so the tree is
    never fetched. *)
Theorem searchContextGetCategory_trusted args search p :
  someSegment args = true ->
  search_pageType search (categoryPath args) = Promise (Returned (Some p)) ->
  pageType_pageType p ∈ typesPossible ->
  searchContextGetCategory args search true =
    mkEff [CallPageType (categoryPath args)] (Returned (Some (pageType_id p)))
  /\ forall levels,
       CallCategories levels ∉ calls (searchContextGetCategory args search true).
Proof.
  intros Hsome Hpt Hlabel.
  rewrite (searchContextGetCategory_classify _ _ Hsome), Hpt.
  apply includes_spec in Hlabel. rewrite Hlabel.
  split; [reflexivity|]. intros levels. cbn [calls]. set_solver.
Qed.

(** C6 (amended). In classification mode, when the page-type service
    resolves to a result whose label is none of the three trusted ones,
    [searchContextGetCategory] continues with [getIdFromTree] on the
    original arguments and settles as it does, whatever identifier the
    service gave; nothing is logged. The diagnostic is logged, for any
    arguments and any client, only when the promise of the page-type call
    was rejected or resolved to nothing. *)
Theorem searchContextGetCategory_untrusted args search p :
  someSegment args = true ->
  search_pageType search (categoryPath args) = Promise (Returned (Some p)) ->
  pageType_pageType p ∉ typesPossible ->
  searchContextGetCategory args search true =
    mkEff (CallPageType (categoryPath args) :: calls (getIdFromTree args search))
      (settled (getIdFromTree args search))
  /\ (forall message name,
        LoggerInfo message name ∉
          calls (searchContextGetCategory args search true))
  /\ (forall args' search' message name,
        LoggerInfo message name ∈
          calls (searchContextGetCategory args' search' true) ->
        (search_pageType search' (categoryPath args') =
           Promise (Returned None) \/
         exists e,
           search_pageType search' (categoryPath args') =
             Promise (Thrown e))
        /\ message = diagnostic args'
        /\ name = "pagetype-category-error").
Proof.
  intros Hsome Hpt Hlabel.
  split; [|split; [|apply searchContextGetCategory_logged]].
  - rewrite (searchContextGetCategory_classify _ _ Hsome), Hpt.
    now rewrite (includes_false _ _ Hlabel).
  - intros message name Hlog.
    apply searchContextGetCategory_logged in Hlog as [[Hnone|[e He]] _];
      congruence.
Qed.

(** C7 (amended). In classification mode, when the promise returned by
    the call to the page-type service is rejected or resolves to nothing,
    [searchContextGetCategory] logs the diagnostic, continues with
    [getIdFromTree] on the original arguments and settles as it does: the
    rejection is not passed on. *)
Theorem searchContextGetCategory_unavailable args search :
  someSegment args = true ->
  (search_pageType search (categoryPath args) = Promise (Returned None) \/
   exists e, search_pageType search (categoryPath args) = Promise (Thrown e)) ->
  searchContextGetCategory args search true =
    mkEff (CallPageType (categoryPath args)
             :: LoggerInfo (diagnostic args) "pagetype-category-error"
             :: calls (getIdFromTree args search))
      (settled (getIdFromTree args search)).
Proof.
  intros Hsome Hpt.
  rewrite (searchContextGetCategory_classify _ _ Hsome).
  now destruct Hpt as [-> | [e ->]].
Qed.

(** C9. In classification mode, when none of [department], [category] and
    [subcategory] is given (or when each is the empty string),
    [searchContextGetCategory] resolves to [null] and makes no call. *)
Theorem searchContextGetCategory_no_args args search :
  truthy (department args) = false ->
  truthy (category args) = false ->
  truthy (subcategory args) = false ->
  searchContextGetCategory args search true = mkEff [] (Returned None).
Proof.
  intros Hd Hc Hs. unfold searchContextGetCategory.
  now rewrite Hd, Hc, Hs.
Qed.

(** With only a department asked for, [getIdFromTree] fetches three levels
    of the tree and resolves to the identifier of the first department the
    comparison accepts. *)
Lemma getIdFromTree_only_department args search departments :
  truthy (department args) = true ->
  truthy (category args) = false ->
  truthy (subcategory args) = false ->
  search_categories search 3 = Returned departments ->
  getIdFromTree args search =
    mkEff [CallCategories 3]
      (Returned
         (id <$> find (fun m => compareGenericSlug args Edepartment (url m))
                   departments)).
Proof.
  intros Hd Hc Hs Hfetch. unfold getIdFromTree, await, categories.
  rewrite Hd, Hc, Hs. cbn [calls settled]. rewrite Hfetch.
  cbn [calls settled resolve app].
  now destruct (find _ departments).
Qed.

Lemma compareGenericSlug_department args d u :
  department args = Some d -> d <> "" ->
  compareGenericSlug args Edepartment u =
  endsWith u ("/" +:+ toLower (searchSlugify d))
  || endsWith u ("/" +:+ toLower (Slugify d)).
Proof.
  intros Hd Hne. unfold compareGenericSlug. cbn [arg]. rewrite Hd.
  cbn [truthy]. now apply String.eqb_neq in Hne as ->.
Qed.

(** C8 (amended). In [getIdFromTree], a department matches the name given
    in [args.department] exactly when its URL, as it is, ends with a slash
    followed by the lower-cased search-style form or by the lower-cased
    generic-style form of the name. With only a department asked for, the
    lookup resolves to the identifier of the first department that
    matches; in particular, when no department URL matches the
    search-style form, to the identifier of the first one that matches the
    generic-style form. *)
Theorem getIdFromTree_department args d :
  department args = Some d -> d <> "" ->
  (forall u,
     compareGenericSlug args Edepartment u = true <->
     (exists q, u = q +:+ "/" +:+ toLower (searchSlugify d)) \/
     (exists q, u = q +:+ "/" +:+ toLower (Slugify d))) /\
  (forall search departments,
     truthy (category args) = false ->
     truthy (subcategory args) = false ->
     search_categories search 3 = Returned departments ->
     getIdFromTree args search =
       mkEff [CallCategories 3]
         (Returned
            (id <$> find (fun m => compareGenericSlug args Edepartment (url m))
                      departments)) /\
     forall n,
       Forall (fun m =>
                 endsWith (url m) ("/" +:+ toLower (searchSlugify d)) = false)
         departments ->
       find (fun m => endsWith (url m) ("/" +:+ toLower (Slugify d)))
         departments = Some n ->
       getIdFromTree args search =
         mkEff [CallCategories 3] (Returned (Some (id n)))).
Proof.
  intros Hd Hne. split.
  - intros u. rewrite (compareGenericSlug_department _ _ _ Hd Hne).
    now rewrite orb_true_iff, !endsWith_spec.
  - intros search departments Hc Hs Hfetch.
    assert (Htruthy : truthy (department args) = true).
    { rewrite Hd. cbn [truthy]. now apply String.eqb_neq in Hne as ->. }
    pose proof (getIdFromTree_only_department _ _ _ Htruthy Hc Hs Hfetch) as Hid.
    split; [exact Hid|]. intros n Hsearch Hgeneric.
    assert (Hfind :
      find (fun m => compareGenericSlug args Edepartment (url m)) departments
      = Some n).
    { rewrite <- Hgeneric. apply find_agree.
      eapply Forall_impl; [exact Hsearch|]. intros m Hm. cbn beta in *.
      now rewrite (compareGenericSlug_department _ _ _ Hd Hne), Hm. }
    now rewrite Hid, Hfind.
Qed.
End ResolverFacts.

(** *** The scenarios of the resolver *)

Lemma searchContextGetCategory_trusted_witness :
  someSegment (onlyDepartment "shoes") = true /\
  ("Category" ∈ typesPossible) /\
  searchContextGetCategory (onlyDepartment "shoes")
    (clientOf (Returned (Some (mkPageType 42 "Category"))) [shoes]) true =
    mkEff [CallPageType "shoes"] (Returned (Some 42)).
Proof.
  assert (Hlabel : "Category" ∈ typesPossible)
    by (apply includes_spec; reflexivity).
  split; [reflexivity|]. split; [exact Hlabel|].
  exact (proj1 (searchContextGetCategory_trusted (onlyDepartment "shoes")
                  (clientOf (Returned (Some (mkPageType 42 "Category"))) [shoes])
                  (mkPageType 42 "Category") eq_refl eq_refl Hlabel)).
Defined.

Lemma searchContextGetCategory_untrusted_witness :
  someSegment (onlyDepartment "shoes") = true /\
  ("FullText" ∉ typesPossible) /\
  searchContextGetCategory (onlyDepartment "shoes")
    (clientOf (Returned (Some (mkPageType 99 "FullText"))) [shoes]) true =
    mkEff [CallPageType "shoes"; CallCategories 3] (Returned (Some 1)).
Proof.
  assert (Hlabel : "FullText" ∉ typesPossible).
  { intros Hin%includes_spec. discriminate Hin. }
  split; [reflexivity|]. split; [exact Hlabel|].
  exact (proj1 (searchContextGetCategory_untrusted (onlyDepartment "shoes")
                  (clientOf (Returned (Some (mkPageType 99 "FullText"))) [shoes])
                  (mkPageType 99 "FullText") eq_refl eq_refl Hlabel)).
Defined.

(** C6 as stated fails: the service answers [FullText], an untrusted
    label, and the calls of the resolution are the page-type request and
    the fetch of the tree; the logger is not called. *)
Lemma searchContextGetCategory_untrusted_not_logged :
  ("FullText" ∉ typesPossible) /\
  calls (searchContextGetCategory (onlyDepartment "shoes")
           (clientOf (Returned (Some (mkPageType 99 "FullText"))) [shoes]) true)
    = [CallPageType "shoes"; CallCategories 3] /\
  forall message name,
    LoggerInfo message name ∉
      calls (searchContextGetCategory (onlyDepartment "shoes")
               (clientOf (Returned (Some (mkPageType 99 "FullText"))) [shoes])
               true).
Proof.
  split; [intros Hin%includes_spec; discriminate Hin|].
  split; [reflexivity|]. intros message name.
  change (LoggerInfo message name ∉ [CallPageType "shoes"; CallCategories 3]).
  set_solver.
Qed.

Lemma searchContextGetCategory_unavailable_witness :
  someSegment (onlyDepartment "shoes") = true /\
  searchContextGetCategory (onlyDepartment "shoes")
    (clientOf (Thrown (Rejected "404")) [shoes]) true =
    mkEff [CallPageType "shoes";
           LoggerInfo
             ("category shoes, args {" +:+ quote +:+ "department" +:+ quote
              +:+ ":" +:+ quote +:+ "shoes" +:+ quote +:+ "}")
             "pagetype-category-error";
           CallCategories 3]
      (Returned (Some 1)).
Proof.
  split; [reflexivity|].
  exact (searchContextGetCategory_unavailable (onlyDepartment "shoes")
           (clientOf (Thrown (Rejected "404")) [shoes]) eq_refl
           (or_intror (ex_intro _ (Rejected "404") eq_refl))).
Defined.

(** C7 as stated fails for a call that throws: [catch] guards the promise
    that [search.pageType(url)] returns, so when the call throws before it
    returns one, the resolver is rejected with what was thrown and the
    tree lookup is not reached. *)
Lemma searchContextGetCategory_call_throws :
  search_pageType (raisingClient (Rejected "boom") [shoes])
    (categoryPath (onlyDepartment "shoes")) = Raises (Rejected "boom") /\
  searchContextGetCategory (onlyDepartment "shoes")
    (raisingClient (Rejected "boom") [shoes]) true =
    mkEff [CallPageType "shoes"] (Thrown (Rejected "boom")).
Proof. split; reflexivity. Qed.

Lemma searchContextGetCategory_no_args_witness :
  searchContextGetCategory noArgs
    (clientOf (Returned (Some (mkPageType 42 "Category"))) [shoes]) true =
    mkEff [] (Returned None).
Proof.
  exact (searchContextGetCategory_no_args noArgs
           (clientOf (Returned (Some (mkPageType 42 "Category"))) [shoes])
           eq_refl eq_refl eq_refl).
Defined.

(** The dual-normaliser scenario: the search-style slug of [Men's] is
    [men-s], which ends no department URL; its generic-style slug is
    [mens]. *)
Lemma getIdFromTree_department_witness :
  "Men's" <> "" /\
  sampleSearchSlugify "Men's" = "men-s" /\
  sampleSlugify "Men's" = "mens" /\
  getIdFromTree (onlyDepartment "Men's")
    (clientOf (Returned None) [capitalised; mens]) =
    mkEff [CallCategories 3] (Returned (Some 8)).
Proof.
  assert (Hne : "Men's" <> "") by discriminate.
  split; [exact Hne|]. split; [reflexivity|]. split; [reflexivity|].
  destruct (getIdFromTree_department (onlyDepartment "Men's") "Men's"
              eq_refl Hne) as [_ Hlookup].
  destruct (Hlookup (clientOf (Returned None) [capitalised; mens])
              [capitalised; mens] eq_refl eq_refl eq_refl) as [_ Hgeneric].
  apply (Hgeneric mens); [|reflexivity].
  repeat constructor.
Defined.

(** C8 as stated fails: up to case the URL [/Shoes] ends with [/shoes],
    the normalised form of the department asked for, but the code
    compares the URL as it is with the lower-cased slug, and resolves to
    [null]. *)
Lemma getIdFromTree_case_sensitive :
  sampleSearchSlugify "shoes" = "shoes" /\
  sampleSlugify "shoes" = "shoes" /\
  departmentMatchesIgnoringCase "shoes" (url capitalised) = true /\
  compareGenericSlug (onlyDepartment "shoes") Edepartment (url capitalised)
    = false /\
  getIdFromTree (onlyDepartment "shoes")
    (clientOf (Returned None) [capitalised]) =
    mkEff [CallCategories 3] (Returned None).
Proof. repeat split; reflexivity. Qed.

(** * Further properties *)

(** ** Splitting and joining *)

Lemma lacks_app sep a b : lacks sep (a +:+ b) = lacks sep a && lacks sep b.
Proof.
  induction a as [|c a IH]; [reflexivity|].
  simpl. now rewrite IH, andb_assoc.
Qed.

Lemma split_all_lack sep s :
  Forall (fun seg => lacks sep seg = true) (split sep s).
Proof.
  induction s as [|c rest IH]; cbn [split]; [now repeat constructor|].
  destruct (Ascii.eqb c sep) eqn:Hc; [now constructor|].
  pose proof (split_nonempty sep rest) as Hne.
  destruct (split sep rest) as [|seg segs]; [congruence|].
  inversion IH as [|? ? Hseg Hsegs]; subst.
  constructor; [|exact Hsegs]. cbn [lacks]. now rewrite Hc, Hseg.
Qed.

(** [s.split(sep).join(sep)] is [s]. *)
Lemma split_join sep s : String.concat (String sep "") (split sep s) = s.
Proof.
  induction s as [|c rest IH]; cbn [split]; [reflexivity|].
  pose proof (split_nonempty sep rest) as Hne.
  destruct (Ascii.eqb_spec c sep) as [->|_];
    destruct (split sep rest) as [|seg segs]; try congruence.
  - change (String.concat (String sep "") ("" :: seg :: segs))
      with (String sep (String.concat (String sep "") (seg :: segs))).
    now rewrite IH.
  - destruct segs as [|seg' segs].
    + change (String.concat (String sep "") [String c seg])
        with (String c (String.concat (String sep "") [seg])).
      now rewrite IH.
    + change (String.concat (String sep "") (String c seg :: seg' :: segs))
        with (String c (String.concat (String sep "") (seg :: seg' :: segs))).
      now rewrite IH.
Qed.

Lemma append_assoc a b c : (a +:+ b) +:+ c = a +:+ b +:+ c.
Proof.
  induction a as [|x a IH]; [reflexivity|].
  change (String x ((a +:+ b) +:+ c) = String x (a +:+ b +:+ c)).
  now rewrite IH.
Qed.

Lemma concat_snoc sep init s :
  init <> [] ->
  String.concat sep (init ++ [s]) = String.concat sep init +:+ sep +:+ s.
Proof.
  induction init as [|x init IH]; [congruence|]. intros _.
  destruct init as [|y init]; [reflexivity|].
  change (String.concat sep ((x :: y :: init) ++ [s]))
    with (x +:+ sep +:+ String.concat sep ((y :: init) ++ [s])).
  rewrite IH by discriminate.
  change (String.concat sep (x :: y :: init))
    with (x +:+ sep +:+ String.concat sep (y :: init)).
  now rewrite !append_assoc.
Qed.

Lemma length_split sep s : length (split sep s) = S (occurrences sep s).
Proof.
  induction s as [|c rest IH]; cbn [split occurrences]; [reflexivity|].
  destruct (Ascii.eqb c sep); [cbn [length]; now rewrite IH|].
  pose proof (split_nonempty sep rest) as Hne.
  destruct (split sep rest) as [|seg segs]; [congruence|exact IH].
Qed.

(** X5. The slug read by [lastSegment] is always defined and has no
    slash, and the URL is the slug itself or ends with a slash followed by
    the slug. *)
Theorem lastSegment_characterised u :
  exists s,
    lastSegment u = Some s /\
    lacks "/" s = true /\
    (u = s \/ exists p, u = p +:+ String "/" s).
Proof.
  destruct (lastSegment_is_Some u) as [s Hs]. exists s. split; [exact Hs|].
  unfold lastSegment in Hs. apply last_Some in Hs as [init Hinit].
  pose proof (split_all_lack "/" u) as Hlack.
  pose proof (split_join "/" u) as Hjoin.
  rewrite Hinit in Hlack, Hjoin.
  apply Forall_app in Hlack as [_ Hlack].
  inversion Hlack as [|? ? Hslug _].
  split; [exact Hslug|].
  destruct init as [|seg init]; [left; now rewrite <- Hjoin|].
  right. exists (String.concat "/" (seg :: init)).
  now rewrite <- Hjoin, concat_snoc by discriminate.
Qed.

(** ** The nodes of a tree *)

Lemma elem_of_nodes tree d :
  d ∈ nodes tree <-> exists r, r ∈ tree /\ d ∈ preorder r.
Proof.
  unfold nodes. rewrite list_elem_of_In, in_flat_map.
  now setoid_rewrite list_elem_of_In.
Qed.

Lemma preorder_nodes c : preorder c = c :: nodes (children c).
Proof. now destruct c. Qed.

Lemma elem_of_preorder_self c : c ∈ preorder c.
Proof. rewrite preorder_nodes. set_solver. Qed.

Lemma elem_of_nodes_root tree n : n ∈ tree -> n ∈ nodes tree.
Proof. intros Hn. apply elem_of_nodes. eauto using elem_of_preorder_self. Qed.

(** The nodes below a node of the tree are nodes of the tree. *)
Lemma preorder_below r :
  forall n d, n ∈ preorder r -> d ∈ nodes (children n) -> d ∈ preorder r.
Proof.
  induction r as [i u cs IH] using CategoryTreeResponse_ind.
  intros n d Hn Hd. rewrite preorder_nodes in *. cbn [children] in *.
  apply elem_of_cons in Hn as [->|Hn]; [cbn [children] in Hd; set_solver|].
  apply elem_of_cons. right.
  apply elem_of_nodes in Hn as (k & Hk & Hn). apply elem_of_nodes.
  exists k. split; [exact Hk|].
  rewrite Forall_forall in IH. now apply (IH k Hk n d).
Qed.

Lemma elem_of_nodes_below tree n d :
  n ∈ nodes tree -> d ∈ nodes (children n) -> d ∈ nodes tree.
Proof.
  intros (r & Hr & Hn)%elem_of_nodes Hd. apply elem_of_nodes.
  exists r. eauto using preorder_below.
Qed.

Lemma elem_of_nodes_child tree n c :
  n ∈ nodes tree -> c ∈ children n -> c ∈ nodes tree.
Proof.
  intros Hn Hc. eapply elem_of_nodes_below; [exact Hn|].
  now apply elem_of_nodes_root.
Qed.

(** ** More on [findCategoryInTree] *)

Section PathSearchMore.
Context `{Imports}.

Lemma at_index_outside values index :
  index < 0 \/ Z.of_nat (length values) <= index ->
  at_index values index = None.
Proof.
  intros Hi. unfold at_index. destruct (Z.ltb_spec index 0); [reflexivity|].
  apply lookup_ge_None. lia.
Qed.

(** X1. With an index that is not a position of the path, which includes
    index 0 of the empty path, [findCategoryInTree] throws a [TypeError] on
    every tree that has a node. *)
Theorem findCategoryInTree_index_outside tree values index :
  tree <> [] ->
  index < 0 \/ Z.of_nat (length values) <= index ->
  findCategoryInTree tree values index = Thrown TypeError.
Proof.
  intros Htree Hi. destruct tree as [|n rest]; [congruence|].
  rewrite findCategoryInTree_cons.
  now rewrite (slugTest_undefined _ _ _ (at_index_outside _ _ Hi)).
Qed.

Lemma slugTest_same_case node P Q index :
  toUpperCase <$> P = toUpperCase <$> Q ->
  slugTest node P index = slugTest node Q index.
Proof.
  intros Heq. unfold slugTest, at_index.
  destruct (lastSegment (url node)); [|reflexivity].
  destruct (index <? 0); [reflexivity|].
  assert (Hi : (toUpperCase <$> P) !! Z.to_nat index
               = (toUpperCase <$> Q) !! Z.to_nat index) by now rewrite Heq.
  rewrite !list_lookup_fmap in Hi.
  destruct (P !! Z.to_nat index), (Q !! Z.to_nat index);
    simpl in Hi; congruence.
Qed.

Lemma findCategoryInTree_same_case_level P Q tree :
  toUpperCase <$> P = toUpperCase <$> Q ->
  Forall (fun c => forall index,
            findCategoryInTree (children c) P index =
            findCategoryInTree (children c) Q index) tree ->
  forall index,
    findCategoryInTree tree P index = findCategoryInTree tree Q index.
Proof.
  intros Heq Hall.
  assert (Hlen : length P = length Q).
  { rewrite <- (length_fmap toUpperCase P), Heq. apply length_fmap. }
  induction Hall as [|n rest Hn _ IH]; intros index; [reflexivity|].
  rewrite !findCategoryInTree_cons, (slugTest_same_case _ _ _ _ Heq), Hlen.
  destruct (slugTest n Q index) as [[|]|]; [|apply IH|reflexivity].
  destruct (index =? Z.of_nat (length Q) - 1); [reflexivity|apply Hn].
Qed.

(** X2. The case of the path does not matter: two paths whose segments
    are equal after upper-casing give the same result, at every index. *)
Theorem findCategoryInTree_ignores_case tree P Q index :
  toUpperCase <$> P = toUpperCase <$> Q ->
  findCategoryInTree tree P index = findCategoryInTree tree Q index.
Proof.
  intros Heq. revert index.
  apply findCategoryInTree_same_case_level; [exact Heq|].
  apply Forall_forall. intros c _. clear tree.
  induction c as [i u cs IH] using CategoryTreeResponse_ind.
  now apply findCategoryInTree_same_case_level.
Qed.

Lemma firstChain_end tree path d :
  firstChain tree path d ->
  d ∈ nodes tree /\ exists v, last path = Some v /\ slugMatches d v = true.
Proof.
  induction 1 as [tree n v Hn | tree n v vs d Hn _ [Hd (w & Hw & Hm)]].
  - split; [eauto using elem_of_nodes_root, firstMatch_elem|].
    exists v. eauto using firstMatch_matches.
  - split.
    + eapply elem_of_nodes_below; [|exact Hd].
      eauto using elem_of_nodes_root, firstMatch_elem.
    + exists w. split; [|exact Hm]. now rewrite last_cons, Hw.
Qed.

(** X3. A node returned for a path is a node of the tree, and its slug
    equals the last segment of the path up to case. *)
Theorem findCategoryInTree_returns_node tree path d :
  findCategoryInTree tree path 0 = Returned (Some d) ->
  d ∈ nodes tree /\ exists v, last path = Some v /\ slugMatches d v = true.
Proof.
  intros Hfind. apply firstChain_end.
  exact (findCategoryInTree_sound tree path 0 d Hfind).
Qed.

Lemma slugTest_drop node values index :
  0 <= index ->
  slugTest node values index =
  slugTest node (drop (Z.to_nat index) values) 0.
Proof.
  intros Hi. unfold slugTest, at_index.
  destruct (Z.ltb_spec index 0); [lia|]. cbn [Z.ltb Z.compare Z.to_nat].
  now rewrite lookup_drop, Nat.add_0_r.
Qed.

Lemma slugTest_true_inside node values index :
  slugTest node values index = Returned true ->
  0 <= index < Z.of_nat (length values).
Proof.
  unfold slugTest, at_index. destruct (lastSegment (url node)); [|discriminate].
  destruct (Z.ltb_spec index 0); [discriminate|].
  destruct (values !! Z.to_nat index) eqn:Hv; [|discriminate].
  apply lookup_lt_Some in Hv. lia.
Qed.

Lemma findCategoryInTree_drop_level tree :
  Forall (fun c => forall values index,
            0 <= index ->
            findCategoryInTree (children c) values index =
            findCategoryInTree (children c) (drop (Z.to_nat index) values) 0)
    tree ->
  forall values index,
    0 <= index ->
    findCategoryInTree tree values index =
    findCategoryInTree tree (drop (Z.to_nat index) values) 0.
Proof.
  induction 1 as [|n rest Hn _ IH]; intros values index Hi; [reflexivity|].
  rewrite !findCategoryInTree_cons, <- (slugTest_drop _ _ _ Hi).
  destruct (slugTest n values index) as [[|]|] eqn:Ht;
    [|now apply IH|reflexivity].
  apply slugTest_true_inside in Ht. rewrite length_drop.
  destruct (Z.eqb_spec index (Z.of_nat (length values) - 1)),
    (Z.eqb_spec 0 (Z.of_nat (length values - Z.to_nat index) - 1));
    try lia; [reflexivity|].
  rewrite (Hn values (index + 1)) by lia.
  rewrite (Hn (drop (Z.to_nat index) values) (0 + 1)) by lia.
  rewrite drop_drop. do 2 f_equal. lia.
Qed.

(** X4. The segments before the index are not read: searching from
    [index] is searching the rest of the path from 0. *)
Theorem findCategoryInTree_from_index tree values index :
  0 <= index ->
  findCategoryInTree tree values index =
  findCategoryInTree tree (drop (Z.to_nat index) values) 0.
Proof.
  apply findCategoryInTree_drop_level.
  apply Forall_forall. intros c _. clear tree values index.
  induction c as [i u cs IH] using CategoryTreeResponse_ind.
  now apply findCategoryInTree_drop_level.
Qed.
End PathSearchMore.

Lemma findCategoryInTree_index_outside_witness :
  [shoes] <> [] /\
  findCategoryInTree [shoes] ["shoes"] 1 = Thrown TypeError.
Proof.
  assert (Htree : [shoes] <> []) by discriminate.
  split; [exact Htree|].
  apply (findCategoryInTree_index_outside [shoes] ["shoes"] 1 Htree).
  right. simpl. lia.
Defined.

Lemma findCategoryInTree_ignores_case_witness :
  findCategoryInTree [shoes] ["SHOES"; "Sneakers"] 0 =
  findCategoryInTree [shoes] ["shoes"; "sneakers"] 0.
Proof.
  exact (findCategoryInTree_ignores_case [shoes] ["SHOES"; "Sneakers"]
           ["shoes"; "sneakers"] 0 eq_refl).
Defined.

Lemma findCategoryInTree_returns_node_witness :
  sneakers ∈ nodes [shoes] /\
  exists v, last ["shoes"; "sneakers"] = Some v /\ slugMatches sneakers v = true.
Proof.
  exact (findCategoryInTree_returns_node [shoes] ["shoes"; "sneakers"] sneakers
           eq_refl).
Defined.

Lemma findCategoryInTree_from_index_witness :
  findCategoryInTree [sneakers] ["shoes"; "sneakers"] 1 =
  findCategoryInTree [sneakers] ["sneakers"] 0.
Proof.
  apply (findCategoryInTree_from_index [sneakers] ["shoes"; "sneakers"] 1). lia.
Defined.

(** ** More on [buildCategoryMap] and [getCategoryInfo] *)

Lemma lookup_buildCategoryMap tree i :
  buildCategoryMap tree !! i = lastWithId i (nodes tree).
Proof.
  unfold buildCategoryMap.
  rewrite foldl_appendToMap_nodes, lookup_foldl_assign, lookup_empty.
  now destruct (lastWithId i (nodes tree)).
Qed.

Lemma lastWithId_Some_elem i l n :
  lastWithId i l = Some n -> n ∈ l /\ id n = i.
Proof.
  unfold lastWithId. intros Hl%last_Some_elem_of.
  apply list_elem_of_filter in Hl. tauto.
Qed.

Lemma lastWithId_is_Some i l : i ∈ id <$> l -> is_Some (lastWithId i l).
Proof.
  intros Hi. destruct (lastWithId i l) eqn:Hl; [eauto|].
  apply list_elem_of_fmap in Hi as (n & -> & Hn).
  unfold lastWithId in Hl. apply last_None in Hl.
  assert (Hf : n ∈ filter (fun x => id x = id n) l)
    by now apply list_elem_of_filter.
  rewrite Hl in Hf. set_solver.
Qed.

Lemma lastWithId_unique l n :
  NoDup (id <$> l) -> n ∈ l -> lastWithId (id n) l = Some n.
Proof.
  induction l as [|x l IH]; [set_solver|].
  rewrite fmap_cons, NoDup_cons. intros [Hx Hl] Hn.
  rewrite lastWithId_cons. apply elem_of_cons in Hn as [->|Hn].
  - rewrite (lastWithId_None _ _ Hx). now destruct (decide (id x = id x)).
  - now rewrite (IH Hl Hn).
Qed.

Lemma size_foldl_assign l m :
  NoDup (id <$> l) ->
  (forall i, i ∈ id <$> l -> m !! i = None) ->
  size (foldl assign m l) = (size m + length l)%nat.
Proof.
  revert m. induction l as [|x l IH]; intros m Hnd Hfresh; simpl; [lia|].
  rewrite fmap_cons, NoDup_cons in Hnd. destruct Hnd as [Hx Hl].
  rewrite IH; [|exact Hl|].
  - unfold assign. rewrite map_size_insert_None; [lia|].
    apply Hfresh. set_solver.
  - intros i Hi. unfold assign. rewrite lookup_insert_ne by set_solver.
    apply Hfresh. set_solver.
Qed.

(** X6. Every binding of the map of [buildCategoryMap] is a node of the
    tree, stored under its own identifier. *)
Theorem buildCategoryMap_binding tree i n :
  buildCategoryMap tree !! i = Some n ->
  n ∈ nodes tree /\ id n = i.
Proof.
  rewrite lookup_buildCategoryMap. apply lastWithId_Some_elem.
Qed.

(** X7. When the identifiers of the nodes are pairwise distinct, every
    node of the tree is read back from the map under its identifier, and
    the map has as many bindings as the tree has nodes. *)
Theorem buildCategoryMap_distinct_ids tree :
  NoDup (id <$> nodes tree) ->
  (forall n, n ∈ nodes tree -> buildCategoryMap tree !! id n = Some n) /\
  size (buildCategoryMap tree) = length (nodes tree).
Proof.
  intros Hnd. split.
  - intros n Hn. rewrite lookup_buildCategoryMap.
    now apply lastWithId_unique.
  - unfold buildCategoryMap. rewrite foldl_appendToMap_nodes.
    rewrite size_foldl_assign, map_size_empty; [reflexivity|exact Hnd|].
    intros i _. apply lookup_empty.
Qed.

(** X8. [appendToMap] leaves alone every binding whose key is not the
    identifier of a node of the category it appends. *)
Theorem appendToMap_frame m c i :
  i ∉ id <$> preorder c ->
  appendToMap m c !! i = m !! i.
Proof.
  intros Hi.
  now rewrite appendToMap_preorder, lookup_foldl_assign, (lastWithId_None _ _ Hi).
Qed.

(** X9. For an identifier that occurs in the fetched tree,
    [getCategoryInfo] resolves to a node of the tree that carries it: the
    last one in pre-order. *)
Theorem getCategoryInfo_known search i levels tree :
  search_categories search levels = Returned tree ->
  i ∈ id <$> nodes tree ->
  exists n,
    getCategoryInfo search i levels =
      mkEff [CallCategories levels] (Returned (OfTree n)) /\
    lastWithId i (nodes tree) = Some n /\ n ∈ nodes tree /\ id n = i.
Proof.
  intros Hfetch Hi. destruct (lastWithId_is_Some _ _ Hi) as [n Hn].
  exists n. split; [|split; [exact Hn|now apply lastWithId_Some_elem]].
  unfold getCategoryInfo, await, categories. simpl. rewrite Hfetch. simpl.
  now rewrite foldl_appendToMap_nodes, lookup_foldl_assign, Hn.
Qed.

(** X10. [getCategoryInfo] fetches the tree once, with the number of
    levels it was given, and it is rejected exactly when the fetch is,
    with the same value. *)
Theorem getCategoryInfo_fetch search i levels :
  calls (getCategoryInfo search i levels) = [CallCategories levels] /\
  forall e,
    settled (getCategoryInfo search i levels) = Thrown e <->
    search_categories search levels = Thrown e.
Proof.
  unfold getCategoryInfo, await, categories. simpl.
  destruct (search_categories search levels) as [tree|e']; simpl.
  - split; [reflexivity|]. intros e. split; discriminate.
  - split; [reflexivity|]. intros e. split; congruence.
Qed.

Lemma buildCategoryMap_binding_witness :
  buildCategoryMap [shoes] !! 2 = Some sneakers /\
  sneakers ∈ nodes [shoes] /\ id sneakers = 2.
Proof.
  assert (Hl : buildCategoryMap [shoes] !! 2 = Some sneakers)
    by (rewrite lookup_buildCategoryMap; reflexivity).
  split; [exact Hl|].
  exact (buildCategoryMap_binding [shoes] 2 sneakers Hl).
Defined.

Lemma buildCategoryMap_distinct_ids_witness :
  NoDup (id <$> nodes [men; shoesUpper]) /\
  buildCategoryMap [men; shoesUpper] !! 23 = Some running /\
  size (buildCategoryMap [men; shoesUpper]) = 4%nat.
Proof.
  assert (Hnd : NoDup (id <$> nodes [men; shoesUpper])).
  { apply (NoDup_fmap_2_strong id); [|].
    - intros x y Hx Hy. simpl in Hx, Hy.
      repeat (apply elem_of_cons in Hx as [->|Hx]);
        repeat (apply elem_of_cons in Hy as [->|Hy]);
        try reflexivity; try discriminate;
        try (now apply not_elem_of_nil in Hx);
        try (now apply not_elem_of_nil in Hy).
    - simpl. repeat (apply NoDup_cons; split; [|]);
        [set_solver..|apply NoDup_nil_2]. }
  split; [exact Hnd|].
  destruct (buildCategoryMap_distinct_ids [men; shoesUpper] Hnd) as [Hall Hsize].
  split; [|exact Hsize].
  apply (Hall running). simpl. set_solver.
Defined.

Lemma appendToMap_frame_witness :
  (11 ∉ id <$> preorder shoes) /\
  appendToMap {[ 11 := shoesUpper ]} shoes !! 11 = Some shoesUpper.
Proof.
  assert (Hi : 11 ∉ id <$> preorder shoes) by (simpl; set_solver).
  split; [exact Hi|].
  rewrite (appendToMap_frame {[ 11 := shoesUpper ]} shoes 11 Hi).
  apply lookup_singleton_eq.
Defined.

Lemma getCategoryInfo_known_witness :
  (1 ∈ id <$> nodes [nodeA]) /\
  exists n,
    getCategoryInfo (clientOf (Returned None) [nodeA]) 1 3 =
      mkEff [CallCategories 3] (Returned (OfTree n)) /\
    lastWithId 1 (nodes [nodeA]) = Some n /\ n ∈ nodes [nodeA] /\ id n = 1.
Proof.
  assert (Hi : 1 ∈ id <$> nodes [nodeA]) by (simpl; set_solver).
  split; [exact Hi|].
  exact (getCategoryInfo_known (clientOf (Returned None) [nodeA]) 1 3 [nodeA]
           eq_refl Hi).
Defined.

(** ** [translatePageType] *)


(** X11. Each of the labels that [searchContextGetCategory] trusts is
    translated to its own name in lower case. *)
Theorem translatePageType_trusted label :
  label ∈ typesPossible ->
  translatePageType label = OwnString (asciiLower label).
Proof.
  intros Hl. unfold typesPossible in Hl.
  repeat (apply elem_of_cons in Hl as [->|Hl]); [reflexivity..|].
  now apply not_elem_of_nil in Hl.
Qed.


Lemma translatePageType_trusted_witness :
  ("SubCategory" ∈ typesPossible) /\
  translatePageType "SubCategory" = OwnString "subcategory".
Proof.
  assert (Hl : "SubCategory" ∈ typesPossible)
    by (apply includes_spec; reflexivity).
  split; [exact Hl|].
  exact (translatePageType_trusted "SubCategory" Hl).
Defined.

(** ** [zipQueryAndMap] *)

Section QueryAndMapFacts.
Context `{Imports}.
Variable decodeURIComponent : string -> outcome string.

Lemma mapThrowing_length {A B} (f : A -> outcome B) l ys :
  mapThrowing f l = Returned ys -> length ys = length l.
Proof.
  revert ys. induction l as [|x l IH]; intros ys; simpl.
  - now intros [= <-].
  - destruct (f x); [|discriminate].
    destruct (mapThrowing f l); [|discriminate].
    intros [= <-]. simpl. now rewrite (IH _ eq_refl).
Qed.

Lemma mapThrowing_thrown {A B} (f : A -> outcome B) l :
  (exists e, mapThrowing f l = Thrown e) <->
  exists x, x ∈ l /\ exists e, f x = Thrown e.
Proof.
  induction l as [|x l IH]; simpl.
  - split; [intros [e He]; discriminate|intros (x & Hx & _); set_solver].
  - destruct (f x) as [y|e] eqn:Hx.
    + destruct (mapThrowing f l) as [ys|e'].
      * split; [intros [e He]; discriminate|].
        intros (z & [->|Hz]%elem_of_cons & e & He); [congruence|].
        destruct (proj2 IH) as [e' He']; [eauto|discriminate].
      * split; [|eauto]. intros _.
        destruct (proj1 IH) as (z & Hz & Hthrown); [eauto|].
        exists z. split; [set_solver|exact Hthrown].
    + split; [|eauto]. intros _. exists x. split; [set_solver|eauto].
Qed.

(** X13. When every segment of the query decodes, [zipQueryAndMap]
    returns as many pairs as the shorter of the two lists has items, one
    more than the number of slashes of the lower-cased query or than the
    number of commas of the map; so at least one pair, also when both
    arguments are absent. *)
Theorem zipQueryAndMap_length query mapArg pairs :
  zipQueryAndMap decodeURIComponent query mapArg = Returned pairs ->
  length pairs =
    Nat.min (S (occurrences "/" (toLower (orEmpty query))))
            (S (occurrences "," (orEmpty mapArg)))
  /\ pairs <> [].
Proof.
  unfold zipQueryAndMap.
  destruct (mapThrowing decodeURIComponent
              (split "/" (toLower (orEmpty query)))) as [segs|] eqn:Hsegs;
    [|discriminate].
  intros [= <-]. apply mapThrowing_length in Hsegs.
  assert (Hlen : length (zip segs (split "," (orEmpty mapArg))) =
                 Nat.min (S (occurrences "/" (toLower (orEmpty query))))
                         (S (occurrences "," (orEmpty mapArg)))).
  { now rewrite length_zip_with, Hsegs, !length_split. }
  split; [exact Hlen|].
  intros Hnil. rewrite Hnil in Hlen. simpl in Hlen. lia.
Qed.

(** X14. [zipQueryAndMap] throws exactly when some segment of the
    lower-cased query fails to decode, whatever the map is: also for a
    segment that the shorter map would have cut off. *)
Theorem zipQueryAndMap_throws query mapArg :
  (exists e, zipQueryAndMap decodeURIComponent query mapArg = Thrown e) <->
  exists segment,
    segment ∈ split "/" (toLower (orEmpty query)) /\
    exists e, decodeURIComponent segment = Thrown e.
Proof.
  rewrite <- mapThrowing_thrown. unfold zipQueryAndMap.
  destruct (mapThrowing decodeURIComponent
              (split "/" (toLower (orEmpty query)))) as [segs|e'].
  - split; intros [e He]; discriminate.
  - split; eauto.
Qed.
End QueryAndMapFacts.

Lemma zipQueryAndMap_length_witness :
  zipQueryAndMap sampleDecode (Some "Shoes/Nike/Red") (Some "c,b") =
    Returned [("shoes", "c"); ("nike", "b")] /\
  length [("shoes", "c"); ("nike", "b")] = 2%nat.
Proof.
  split; [reflexivity|].
  exact (proj1 (zipQueryAndMap_length sampleDecode (Some "Shoes/Nike/Red")
                  (Some "c,b") [("shoes", "c"); ("nike", "b")] eq_refl)).
Defined.

(** ** [getBrandFromSlug] *)

Section BrandFacts.
Context `{Imports}.
Context {Brand : Type}.
Variable brand_name : Brand -> string.
Variable brand_isActive : Brand -> bool.

Lemma brandMatches_spec brandSlug brand :
  brandMatches brand_name brand_isActive brandSlug brand = true <->
  brand_isActive brand = true /\
  (toLower (searchSlugify (brand_name brand)) = brandSlug \/
   toLower (Slugify (brand_name brand)) = brandSlug).
Proof.
  unfold brandMatches.
  now rewrite andb_true_iff, orb_true_iff, !String.eqb_eq.
Qed.

(** X15. A brand returned by [getBrandFromSlug] is one of the brands of
    the client, it is active, and the lower-cased search-style or
    generic-style slug of its name is the slug asked for. *)
Theorem getBrandFromSlug_found brandSlug search_brands brand :
  getBrandFromSlug brand_name brand_isActive brandSlug search_brands =
    Returned (Some brand) ->
  exists brands,
    search_brands = Returned brands /\
    brand ∈ brands /\
    brand_isActive brand = true /\
    (toLower (searchSlugify (brand_name brand)) = brandSlug \/
     toLower (Slugify (brand_name brand)) = brandSlug).
Proof.
  unfold getBrandFromSlug. destruct search_brands as [brands|]; [|discriminate].
  intros [= Hfind]. apply find_some in Hfind as [Hin Hm].
  exists brands. split; [reflexivity|]. split; [now apply list_elem_of_In|].
  now apply brandMatches_spec.
Qed.

(** X16. [getBrandFromSlug] returns [undefined] exactly when no active
    brand has the slug, and an inactive brand is never returned: it does
    not matter that its slug is the one asked for. *)
Theorem getBrandFromSlug_none brandSlug brands :
  getBrandFromSlug brand_name brand_isActive brandSlug (Returned brands) =
    Returned None <->
  forall brand,
    brand ∈ brands -> brand_isActive brand = true ->
    toLower (searchSlugify (brand_name brand)) <> brandSlug /\
    toLower (Slugify (brand_name brand)) <> brandSlug.
Proof.
  unfold getBrandFromSlug. split.
  - intros [= Hfind] brand Hin Hactive.
    pose proof (find_none _ _ Hfind brand (proj1 (list_elem_of_In _ _) Hin))
      as Hno.
    split; intros Heq;
      (assert (brandMatches brand_name brand_isActive brandSlug brand = true)
         by (apply brandMatches_spec; auto); congruence).
  - intros Hall. f_equal.
    destruct (find _ brands) as [brand|] eqn:Hfind; [|reflexivity].
    apply find_some in Hfind as [Hin Hm].
    apply brandMatches_spec in Hm as [Hactive Hslug].
    destruct (Hall brand (proj2 (list_elem_of_In _ _) Hin) Hactive).
    tauto.
Qed.
End BrandFacts.

Lemma getBrandFromSlug_found_witness :
  getBrandFromSlug sample_name sample_isActive "nike"
    (Returned [mkBrand "Nike" false; mkBrand "NIKE" true]) =
    Returned (Some (mkBrand "NIKE" true)) /\
  sample_isActive (mkBrand "NIKE" true) = true.
Proof.
  assert (Hfound :
    getBrandFromSlug sample_name sample_isActive "nike"
      (Returned [mkBrand "Nike" false; mkBrand "NIKE" true]) =
    Returned (Some (mkBrand "NIKE" true))) by reflexivity.
  split; [exact Hfound|].
  destruct (getBrandFromSlug_found sample_name sample_isActive "nike"
              (Returned [mkBrand "Nike" false; mkBrand "NIKE" true])
              (mkBrand "NIKE" true) Hfound) as (_ & _ & _ & Hactive & _).
  exact Hactive.
Defined.

(** ** [searchEncodeURI] *)

Lemma escapeChar_clean x c :
  c ∈ specialChars -> lacks c (escapeChar x) = true.
Proof.
  intros Hc. unfold escapeChar.
  destruct (Ascii.eqb x "%") eqn:H1; [|
  destruct (Ascii.eqb x "034") eqn:H2; [|
  destruct (Ascii.eqb x "'") eqn:H3; [|
  destruct (Ascii.eqb x ".") eqn:H4; [|
  destruct (Ascii.eqb x "(") eqn:H5; [|
  destruct (Ascii.eqb x ")") eqn:H6]]]]];
    unfold specialChars in Hc;
    repeat (apply elem_of_cons in Hc as [->|Hc]);
    try (now apply not_elem_of_nil in Hc);
    try reflexivity;
    cbn [lacks]; now rewrite ?H1, ?H2, ?H3, ?H4, ?H5, ?H6.
Qed.

Lemma escapeChar_other x :
  (forall c, c ∈ specialChars -> Ascii.eqb x c = false) ->
  escapeChar x = String x EmptyString.
Proof.
  intros Hx. unfold escapeChar.
  now rewrite !Hx by (unfold specialChars; set_solver).
Qed.

Lemma replaceSpecial_clean str c :
  c ∈ specialChars -> lacks c (replaceSpecial str) = true.
Proof.
  intros Hc. induction str as [|x str IH]; [reflexivity|].
  cbn [replaceSpecial]. now rewrite lacks_app, escapeChar_clean, IH.
Qed.

Lemma replaceSpecial_fixed str :
  (forall c, c ∈ specialChars -> lacks c str = true) ->
  replaceSpecial str = str.
Proof.
  induction str as [|x str IH]; [reflexivity|]. intros Hstr.
  cbn [replaceSpecial]. rewrite escapeChar_other, IH.
  - reflexivity.
  - intros c Hc. specialize (Hstr c Hc). cbn [lacks] in Hstr.
    now apply andb_prop in Hstr as [_ Hrest].
  - intros c Hc. specialize (Hstr c Hc). cbn [lacks] in Hstr.
    apply andb_prop in Hstr as [Hhead _]. now apply negb_true_iff in Hhead.
Qed.

Lemma replaceSpecial_app a b :
  replaceSpecial (a +:+ b) = replaceSpecial a +:+ replaceSpecial b.
Proof.
  induction a as [|x a IH]; [reflexivity|].
  change (replaceSpecial (String x a +:+ b))
    with (escapeChar x +:+ replaceSpecial (a +:+ b)).
  cbn [replaceSpecial]. now rewrite IH, append_assoc.
Qed.

Section EncodeFacts.
Variable isGoCommerceAcc : string -> bool.

(** X17. For an account that is not a GoCommerce account, none of the six
    characters of the class is left in the result of [searchEncodeURI]. *)
Theorem searchEncodeURI_clean account str c :
  isGoCommerceAcc account = false ->
  c ∈ specialChars ->
  lacks c (searchEncodeURI isGoCommerceAcc account str) = true.
Proof.
  intros Hacc Hc. unfold searchEncodeURI. rewrite Hacc.
  now apply replaceSpecial_clean.
Qed.

(** X18. For such an account, [searchEncodeURI] returns its argument
    unchanged exactly when the argument has none of the six characters;
    a string that has one is therefore given the encoding that its own
    encoding also has. *)
Theorem searchEncodeURI_unchanged account str :
  isGoCommerceAcc account = false ->
  searchEncodeURI isGoCommerceAcc account str = str <->
  forall c, c ∈ specialChars -> lacks c str = true.
Proof.
  intros Hacc. unfold searchEncodeURI. rewrite Hacc. cbn [negb]. split.
  - intros Heq c Hc. rewrite <- Heq. now apply replaceSpecial_clean.
  - apply replaceSpecial_fixed.
Qed.

(** X19. [searchEncodeURI] works character by character: the encoding of
    two strings put together is their encodings put together. *)
Theorem searchEncodeURI_append account a b :
  searchEncodeURI isGoCommerceAcc account (a +:+ b) =
  searchEncodeURI isGoCommerceAcc account a
  +:+ searchEncodeURI isGoCommerceAcc account b.
Proof.
  unfold searchEncodeURI. destruct (isGoCommerceAcc account); [reflexivity|].
  apply replaceSpecial_app.
Qed.

(** X20. Encoding twice is encoding once. *)
Theorem searchEncodeURI_idempotent account str :
  searchEncodeURI isGoCommerceAcc account
    (searchEncodeURI isGoCommerceAcc account str) =
  searchEncodeURI isGoCommerceAcc account str.
Proof.
  unfold searchEncodeURI. destruct (isGoCommerceAcc account); [reflexivity|].
  cbn [negb]. apply replaceSpecial_fixed.
  intros c Hc. now apply replaceSpecial_clean.
Qed.
End EncodeFacts.

Lemma searchEncodeURI_clean_witness :
  ("."%char ∈ specialChars) /\
  searchEncodeURI (fun _ => false) "store" "a.b(c)" = "a@dot@b@lpar@c@rpar@" /\
  lacks "." (searchEncodeURI (fun _ => false) "store" "a.b(c)") = true.
Proof.
  assert (Hc : "."%char ∈ specialChars) by (unfold specialChars; set_solver).
  split; [exact Hc|]. split; [reflexivity|].
  exact (searchEncodeURI_clean (fun _ => false) "store" "a.b(c)" "." eq_refl Hc).
Defined.

Lemma searchEncodeURI_unchanged_witness :
  searchEncodeURI (fun _ => false) "store" "@dot@" = "@dot@" /\
  searchEncodeURI (fun _ => false) "store" "." = "@dot@".
Proof.
  split; [|reflexivity].
  apply (searchEncodeURI_unchanged (fun _ => false) "store" "@dot@" eq_refl).
  intros c Hc. unfold specialChars in Hc.
  repeat (apply elem_of_cons in Hc as [->|Hc]); try reflexivity.
  now apply not_elem_of_nil in Hc.
Defined.

(** ** More on [getIdFromTree] and [searchContextGetCategory] *)

Lemma find_elem {A} (f : A -> bool) l x :
  find f l = Some x -> x ∈ l /\ f x = true.
Proof.
  intros [Hin Hf]%find_some. split; [now apply list_elem_of_In|exact Hf].
Qed.

Section ResolverMore.
Context `{Imports}.

(** After the fetch, [getIdFromTree] goes down one level for each of
    [category] and [subcategory] that is given. *)
Lemma getIdFromTree_fetched args search departments :
  truthy (department args) = true ->
  search_categories search 3 = Returned departments ->
  getIdFromTree args search =
    mkEff [CallCategories 3]
      (Returned
         (id <$>
            match
              match find (fun d => compareGenericSlug args Edepartment (url d))
                      departments with
              | Some f =>
                  if truthy (category args)
                  then find (fun c => compareGenericSlug args Ecategory (url c))
                         (children f)
                  else Some f
              | None => None
              end
            with
            | Some f =>
                if truthy (subcategory args)
                then find (fun c => compareGenericSlug args Esubcategory (url c))
                       (children f)
                else Some f
            | None => None
            end)).
Proof.
  intros Hd Hfetch. unfold getIdFromTree, await, categories.
  rewrite Hd. cbn [calls settled]. rewrite Hfetch.
  cbn [calls settled resolve app].
  destruct (find _ departments) as [d|]; [|reflexivity].
  destruct (truthy (category args)).
  - destruct (find _ (children d)) as [c|]; [|reflexivity].
    destruct (truthy (subcategory args)); [|reflexivity].
    now destruct (find _ (children c)).
  - destruct (truthy (subcategory args)); [|reflexivity].
    now destruct (find _ (children d)).
Qed.

Lemma getIdFromTree_Thrown_iff args search e :
  settled (getIdFromTree args search) = Thrown e <->
  truthy (department args) = true /\ search_categories search 3 = Thrown e.
Proof.
  destruct (truthy (department args)) eqn:Hd.
  - destruct (search_categories search 3) as [departments|e'] eqn:Hfetch.
    + rewrite (getIdFromTree_fetched _ _ _ Hd Hfetch). cbn [settled].
      split; [discriminate|intros [_ [=]]].
    + unfold getIdFromTree, await, categories. rewrite Hd.
      cbn [calls settled]. rewrite Hfetch.
      split; [intros [= ->]; auto|intros [_ [= ->]]; reflexivity].
  - unfold getIdFromTree. rewrite Hd. cbn [settled resolve].
    split; [discriminate|intros [[=] _]].
Qed.

(** X21. [getIdFromTree] is rejected exactly when a department is given
    and the fetch of the tree is rejected, and then with the same value. *)
Theorem getIdFromTree_rejected args search e :
  settled (getIdFromTree args search) = Thrown e <->
  truthy (department args) = true /\ search_categories search 3 = Thrown e.
Proof. apply getIdFromTree_Thrown_iff. Qed.

(** X22. An identifier returned by [getIdFromTree] is the identifier of a
    node of the fetched tree whose URL was accepted for one of the three
    arguments. *)
Theorem getIdFromTree_returns_node args search departments i :
  search_categories search 3 = Returned departments ->
  settled (getIdFromTree args search) = Returned (Some i) ->
  exists n e,
    n ∈ nodes departments /\ id n = i /\
    compareGenericSlug args e (url n) = true.
Proof.
  intros Hfetch. destruct (truthy (department args)) eqn:Hd;
    [|unfold getIdFromTree; rewrite Hd; discriminate].
  rewrite (getIdFromTree_fetched _ _ _ Hd Hfetch). cbn [settled].
  destruct (find _ departments) as [d|] eqn:Hfd; [|discriminate].
  apply find_elem in Hfd as [Hdin Hdm].
  apply elem_of_nodes_root in Hdin.
  destruct (truthy (category args)).
  - destruct (find _ (children d)) as [c|] eqn:Hfc; [|discriminate].
    apply find_elem in Hfc as [Hcin Hcm].
    pose proof (elem_of_nodes_child _ _ _ Hdin Hcin) as Hc.
    destruct (truthy (subcategory args)).
    + destruct (find _ (children c)) as [s|] eqn:Hfs; [|discriminate].
      apply find_elem in Hfs as [Hsin Hsm]. intros [= <-].
      exists s, Esubcategory. eauto using elem_of_nodes_child.
    + intros [= <-]. exists c, Ecategory. auto.
  - destruct (truthy (subcategory args)).
    + destruct (find _ (children d)) as [s|] eqn:Hfs; [|discriminate].
      apply find_elem in Hfs as [Hsin Hsm]. intros [= <-].
      exists s, Esubcategory. eauto using elem_of_nodes_child.
    + intros [= <-]. exists d, Edepartment. auto.
Qed.

(** X23. When a category is asked for and no child of the first matching
    department matches it, [getIdFromTree] resolves to [null]: the
    department that matched is not returned, and no other department is
    tried. *)
Theorem getIdFromTree_broken_chain args search departments d :
  truthy (department args) = true ->
  truthy (category args) = true ->
  search_categories search 3 = Returned departments ->
  find (fun m => compareGenericSlug args Edepartment (url m)) departments
    = Some d ->
  find (fun c => compareGenericSlug args Ecategory (url c)) (children d)
    = None ->
  getIdFromTree args search = mkEff [CallCategories 3] (Returned None).
Proof.
  intros Hd Hc Hfetch Hfd Hfc.
  now rewrite (getIdFromTree_fetched _ _ _ Hd Hfetch), Hfd, Hc, Hfc.
Qed.

(** X24. When a subcategory is given without a category, it is looked
    for among the children of the department, one level above where
    subcategories are. *)
Theorem getIdFromTree_skips_level args search departments d :
  truthy (department args) = true ->
  truthy (category args) = false ->
  truthy (subcategory args) = true ->
  search_categories search 3 = Returned departments ->
  find (fun m => compareGenericSlug args Edepartment (url m)) departments
    = Some d ->
  getIdFromTree args search =
    mkEff [CallCategories 3]
      (Returned
         (id <$> find (fun c => compareGenericSlug args Esubcategory (url c))
                   (children d))).
Proof.
  intros Hd Hc Hs Hfetch Hfd.
  now rewrite (getIdFromTree_fetched _ _ _ Hd Hfetch), Hfd, Hc, Hs.
Qed.

(** X25. Whatever the arguments, the client and the mode,
    [searchContextGetCategory] issues one of six sequences of calls: at
    most one page-type request, at most one diagnostic and at most one
    fetch of three levels of the tree, in this order, the diagnostic only
    after a request. *)
Theorem searchContextGetCategory_calls args search isVtex :
  let request := CallPageType (categoryPath args) in
  let log := LoggerInfo (diagnostic args) "pagetype-category-error" in
  let fetch := CallCategories 3 in
  calls (searchContextGetCategory args search isVtex) ∈
    [ []; [fetch]; [request]; [request; fetch];
      [request; log]; [request; log; fetch] ].
Proof.
  intros request log fetch. destruct isVtex.
  - destruct (someSegment args) eqn:Hsome.
    + rewrite (searchContextGetCategory_classify _ _ Hsome).
      destruct (search_pageType search (categoryPath args)) as [e|[[p|]|e]];
        [|destruct (includes typesPossible (pageType_pageType p))|..];
        cbn [calls]; rewrite ?getIdFromTree_calls;
        destruct (truthy (department args)); set_solver.
    + unfold someSegment in Hsome. unfold searchContextGetCategory.
      apply orb_false_elim in Hsome as [[Hd Hc]%orb_false_elim Hs].
      rewrite Hd, Hc, Hs. cbn. set_solver.
  - unfold searchContextGetCategory. cbn [negb].
    rewrite getIdFromTree_calls. destruct (truthy (department args)); set_solver.
Qed.

(** X26. In classification mode with no department given, the tree is
    never fetched, and the result depends on the page-type call alone:
    with no segment at all it is [null]; otherwise it is the identifier
    of a trusted answer, [null] for an untrusted answer, for no answer and
    for a rejected promise, and the resolver is rejected when the call
    itself throws. *)
Theorem searchContextGetCategory_no_department args search :
  truthy (department args) = false ->
  (forall levels,
     CallCategories levels ∉ calls (searchContextGetCategory args search true))
  /\
  (someSegment args = false ->
   settled (searchContextGetCategory args search true) = Returned None)
  /\
  (someSegment args = true ->
   (forall p,
      search_pageType search (categoryPath args) = Promise (Returned (Some p)) ->
      pageType_pageType p ∈ typesPossible ->
      settled (searchContextGetCategory args search true) =
        Returned (Some (pageType_id p))) /\
   (forall p,
      search_pageType search (categoryPath args) = Promise (Returned (Some p)) ->
      pageType_pageType p ∉ typesPossible ->
      settled (searchContextGetCategory args search true) = Returned None) /\
   (search_pageType search (categoryPath args) = Promise (Returned None) ->
    settled (searchContextGetCategory args search true) = Returned None) /\
   (forall e,
      search_pageType search (categoryPath args) = Promise (Thrown e) ->
      settled (searchContextGetCategory args search true) = Returned None) /\
   (forall e,
      search_pageType search (categoryPath args) = Raises e ->
      settled (searchContextGetCategory args search true) = Thrown e)).
Proof.
  intros Hd.
  assert (Htree : getIdFromTree args search = mkEff [] (Returned None))
    by (unfold getIdFromTree; now rewrite Hd).
  assert (Hnone : someSegment args = false ->
                  searchContextGetCategory args search true =
                    mkEff [] (Returned None)).
  { unfold someSegment, searchContextGetCategory.
    intros [[_ Hc]%orb_false_elim Hs]%orb_false_elim.
    now rewrite Hd, Hc, Hs. }
  split; [|split].
  - intros levels. destruct (someSegment args) eqn:Hsome.
    + rewrite (searchContextGetCategory_classify _ _ Hsome), Htree.
      destruct (search_pageType search (categoryPath args)) as [e|[[p|]|e]];
        [|destruct (includes typesPossible (pageType_pageType p))|..];
        cbn [calls]; set_solver.
    + rewrite (Hnone eq_refl). set_solver.
  - intros Hsome. now rewrite (Hnone Hsome).
  - intros Hsome. rewrite (searchContextGetCategory_classify _ _ Hsome), Htree.
    repeat split.
    + intros p -> Hp%includes_spec. now rewrite Hp.
    + intros p -> Hp. now rewrite (includes_false _ _ Hp).
    + now intros ->.
    + now intros e ->.
    + now intros e ->.
Qed.

(** X27. [searchContextGetCategory] is rejected with [e] in two cases and
    no other: in classification mode with a segment given, when the
    page-type call itself throws [e] before it returns a promise; and,
    with a department given, when the tree lookup is reached (generic
    mode, or a page-type promise that does not resolve to a trusted
    answer) and the fetch of the tree is rejected with [e]. A rejection
    of the page-type promise is never passed on. *)
Theorem searchContextGetCategory_rejected args search isVtex e :
  settled (searchContextGetCategory args search isVtex) = Thrown e <->
  (isVtex = true /\ someSegment args = true /\
   search_pageType search (categoryPath args) = Raises e) \/
  ((isVtex = false \/
    exists q,
      search_pageType search (categoryPath args) = Promise q /\
      forall p, q = Returned (Some p) -> pageType_pageType p ∉ typesPossible)
   /\ truthy (department args) = true
   /\ search_categories search 3 = Thrown e).
Proof.
  assert (Hgeneric :
    searchContextGetCategory args search false = getIdFromTree args search)
    by reflexivity.
  split.
  - destruct isVtex; [|rewrite Hgeneric, getIdFromTree_Thrown_iff; tauto].
    destruct (someSegment args) eqn:Hsome.
    + rewrite (searchContextGetCategory_classify _ _ Hsome).
      destruct (search_pageType search (categoryPath args))
        as [e'|[[p|]|e']] eqn:Hpt;
        [|destruct (includes typesPossible (pageType_pageType p)) eqn:Hp|..];
        cbn [settled]; try discriminate.
      * intros [= ->]. auto.
      * intros [Hd Hfetch]%getIdFromTree_Thrown_iff. right.
        split; [|auto]. right. eexists. split; [reflexivity|].
        intros p' [= <-] Hin%includes_spec. congruence.
      * intros [Hd Hfetch]%getIdFromTree_Thrown_iff. right.
        split; [|auto]. right. eexists. split; [reflexivity|]. discriminate.
      * intros [Hd Hfetch]%getIdFromTree_Thrown_iff. right.
        split; [|auto]. right. eexists. split; [reflexivity|]. discriminate.
    + unfold someSegment in Hsome. unfold searchContextGetCategory.
      apply orb_false_elim in Hsome as [[Hd Hc]%orb_false_elim Hs].
      rewrite Hd, Hc, Hs. discriminate.
  - intros [(-> & Hsome & Hpt)|(Hreach & Hd & Hfetch)].
    + now rewrite (searchContextGetCategory_classify _ _ Hsome), Hpt.
    + assert (Htree : settled (getIdFromTree args search) = Thrown e)
        by now apply getIdFromTree_Thrown_iff.
      destruct isVtex; [|now rewrite Hgeneric].
      destruct Hreach as [[=]|(q & Hpt & Huntrusted)].
      assert (Hsome : someSegment args = true)
        by (unfold someSegment; now rewrite Hd).
      rewrite (searchContextGetCategory_classify _ _ Hsome), Hpt.
      destruct q as [[p|]|e']; cbn [settled]; try exact Htree.
      now rewrite (includes_false _ _ (Huntrusted p eq_refl)).
Qed.
End ResolverMore.

Lemma getIdFromTree_returns_node_witness :
  exists n e,
    n ∈ nodes [men] /\ id n = 23 /\
    compareGenericSlug (mkArgs (Some "men") (Some "shoes") (Some "running")) e
      (url n) = true.
Proof.
  exact (getIdFromTree_returns_node
           (mkArgs (Some "men") (Some "shoes") (Some "running"))
           (clientOf (Returned None) [men]) [men] 23 eq_refl eq_refl).
Defined.

Lemma getIdFromTree_broken_chain_witness :
  getIdFromTree (mkArgs (Some "men") (Some "hats") None)
    (clientOf (Returned None) [men]) =
  mkEff [CallCategories 3] (Returned None).
Proof.
  exact (getIdFromTree_broken_chain (mkArgs (Some "men") (Some "hats") None)
           (clientOf (Returned None) [men]) [men] men
           eq_refl eq_refl eq_refl eq_refl eq_refl).
Defined.

Lemma getIdFromTree_skips_level_witness :
  getIdFromTree (mkArgs (Some "men") None (Some "shoes"))
    (clientOf (Returned None) [men]) =
  mkEff [CallCategories 3] (Returned (Some 22)).
Proof.
  exact (getIdFromTree_skips_level (mkArgs (Some "men") None (Some "shoes"))
           (clientOf (Returned None) [men]) [men] men
           eq_refl eq_refl eq_refl eq_refl eq_refl).
Defined.

Lemma searchContextGetCategory_no_department_witness :
  truthy (department (mkArgs None (Some "shoes") None)) = false /\
  ("Category" ∈ typesPossible) /\
  settled (searchContextGetCategory (mkArgs None (Some "shoes") None)
             (clientOf (Returned (Some (mkPageType 42 "Category"))) [men])
             true) = Returned (Some 42) /\
  forall levels,
    CallCategories levels ∉
      calls (searchContextGetCategory (mkArgs None (Some "shoes") None)
               (clientOf (Returned (Some (mkPageType 42 "Category"))) [men])
               true).
Proof.
  assert (Hlabel : "Category" ∈ typesPossible)
    by (apply includes_spec; reflexivity).
  destruct (searchContextGetCategory_no_department
              (mkArgs None (Some "shoes") None)
              (clientOf (Returned (Some (mkPageType 42 "Category"))) [men])
              eq_refl) as (Hcalls & _ & Hsome).
  destruct (Hsome eq_refl) as (Htrusted & _).
  split; [reflexivity|]. split; [exact Hlabel|]. split; [|exact Hcalls].
  exact (Htrusted (mkPageType 42 "Category") eq_refl Hlabel).
Defined.

(** The two rejections: the page-type call throws, and the fetch of the
    tree is rejected after a rejected page-type promise was absorbed. *)
Example searchContextGetCategory_rejections :
  searchContextGetCategory (onlyDepartment "men")
    (raisingClient (Rejected "boom") [men]) true =
    mkEff [CallPageType "men"] (Thrown (Rejected "boom")) /\
  settled (searchContextGetCategory (onlyDepartment "men")
             (failingClient (Thrown (Rejected "404")) (Rejected "503")) true) =
    Thrown (Rejected "503").
Proof. split; reflexivity. Qed.
